(** * Spine Engine: the DAG execution engine of [spine_engine.py]

    A shallow embedding of [src/spine_engine/spine_engine.py] and the
    properties of its graph construction, of the per-node compute function
    and of the run-state machine. *)

From Stdlib Require Import List String Bool Arith Lia.
Import ListNotations.
Local Open Scope string_scope.
Local Open Scope list_scope.

Set Implicit Arguments.

(** ** Python dictionaries

    A [dict] keeps its keys in insertion order and holds each key once.
    The order is observable here: [_inverted] walks [input_.items()] and
    appends to lists, and the compute function flattens [inputs.values()].
    A dictionary is therefore an association list in insertion order, and
    the operations below keep its keys distinct. *)

Module Dict.

Definition dict (V : Type) : Type := list (string * V).

(** [k in d], and the value stored there. *)
Fixpoint lookup {V} (d : dict V) (k : string) : option V :=
  match d with
  | [] => None
  | (k', v) :: rest => if String.eqb k k' then Some v else lookup rest k
  end.

(** [d.get(k, default)]. *)
Definition get_or {V} (d : dict V) (k : string) (default : V) : V :=
  match lookup d k with
  | Some v => v
  | None => default
  end.

(** [d[k] = v]: an existing key keeps its place, a new one goes last. *)
Fixpoint store {V} (d : dict V) (k : string) (v : V) : dict V :=
  match d with
  | [] => [(k, v)]
  | (k', v') :: rest =>
      if String.eqb k k' then (k', v) :: rest else (k', v') :: store rest k v
  end.

Definition keys {V} (d : dict V) : list string := map fst d.
Definition values {V} (d : dict V) : list V := map snd d.

(** A well-formed dictionary: no key twice. *)
Definition wf {V} (d : dict V) : Prop := NoDup (keys d).

End Dict.
Import Dict.

(** ** [_inverted] (lines 34-47) *)

(** [output.setdefault(value, list()).append(key)] *)
Definition setdefault_append (output : dict (list string)) (value key : string)
  : dict (list string) :=
  match lookup output value with
  | Some keys_so_far => store output value (keys_so_far ++ [key])
  | None => store output value ([] ++ [key])
  end.

(** The inner loop [for value in value_list]. *)
Definition _inverted_values (key : string) (value_list : list string)
    (output : dict (list string)) : dict (list string) :=
  fold_left (fun output value => setdefault_append output value key)
            value_list output.

(** The outer loop [for key, value_list in input_.items()]. *)
Definition _inverted_items (input_ : dict (list string))
    (output : dict (list string)) : dict (list string) :=
  fold_left (fun output kv => _inverted_values (fst kv) (snd kv) output)
            input_ output.

Definition _inverted (input_ : dict (list string)) : dict (list string) :=
  _inverted_items input_ [].

(** The edges of a dictionary of lists: [k -> v] when [v] is listed under [k]. *)
Definition edge (m : dict (list string)) (k v : string) : Prop :=
  In v (get_or m k []).

(** How often [v] is listed under [k]. *)
Definition mult (m : dict (list string)) (k v : string) : nat :=
  count_occ string_dec (get_or m k []) v.

(** No key of [output] has an empty list. *)
Definition no_empty_entry (output : dict (list string)) : Prop :=
  forall v l, lookup output v = Some l -> l <> [].

(** ** Errors raised by the Python code *)

Inductive Error : Type :=
| KeyError (key : string)              (* a missing dictionary key *)
| DagsterInvalidDefinitionError.       (* raised by dagster's constructors *)

Definition Fallible (A : Type) : Type := Error + A.

Definition try_bind {A B} (c : Fallible A) (k : A -> Fallible B) : Fallible B :=
  match c with
  | inl e => inl e
  | inr a => k a
  end.

Notation "'try' x <- c ; k" := (try_bind c (fun x => k))
  (at level 10, x name, c at level 100, k at level 200).

(** [d[k]], which raises [KeyError] for a missing key. *)
Definition getitem {V} (d : dict V) (k : string) : Fallible V :=
  match lookup d k with
  | Some v => inr v
  | None => inl (KeyError k)
  end.

(** A list comprehension [[f x for x in xs]] whose element may raise. *)
Fixpoint try_map {A B} (f : A -> Fallible B) (xs : list A) : Fallible (list B) :=
  match xs with
  | [] => inr []
  | x :: rest => try y <- f x ; try ys <- try_map f rest ; inr (y :: ys)
  end.

(** A dictionary comprehension [{k: v for ... }] over already evaluated
    pairs: a key that comes twice keeps its first place and its last value. *)
Definition dict_of {V} (pairs : list (string * V)) : dict V :=
  fold_left (fun d kv => store d (fst kv) (snd kv)) pairs [].

(** ** [SpineEngineState] (lines 50-55) *)

Inductive SpineEngineState : Type :=
| SLEEPING | RUNNING | USER_STOPPED | FAILED | COMPLETED.

Definition state_eqb (a b : SpineEngineState) : bool :=
  match a, b with
  | SLEEPING, SLEEPING | RUNNING, RUNNING | USER_STOPPED, USER_STOPPED
  | FAILED, FAILED | COMPLETED, COMPLETED => true
  | _, _ => false
  end.

(** The [direction] argument, ["backward"] or ["forward"] in the source. *)
Inductive Direction : Type := backward | forward.

Definition direction_str (direction : Direction) : string :=
  match direction with
  | backward => "backward"
  | forward => "forward"
  end.

(** ** What the engine sees of dagster's events *)

Inductive DagsterEventType : Type :=
| STEP_INPUT | STEP_OUTPUT | STEP_START | STEP_SUCCESS | STEP_FAILURE
| STEP_SKIPPED | PIPELINE_START | PIPELINE_SUCCESS | PIPELINE_FAILURE.

Record DagsterEvent : Type := {
  event_type : DagsterEventType;
  solid_name : string
}.

Record DependencyDefinition : Type := {
  dep_solid : string;
  dep_output : string
}.

Section Engine.

(** Resources are opaque to the engine; [World] is whatever the project
    items act on when they run. *)
Variables (Resource World : Type).

(** ** Project items

    The interface the engine uses of a [ProjectItem]: two attributes and
    three methods, each method a transition of the world. *)
Record ProjectItem : Type := {
  name : string;
  short_name : string;
  execute : list Resource -> Direction -> World -> bool * World;
  output_resources : Direction -> World -> list Resource * World;
  stop_execution : World -> World
}.

(** Every method call on an item is logged, so that "never invoked" can be
    stated. *)
Inductive Call : Type :=
| ExecuteCall (item : string) (inputs : list Resource) (direction : Direction)
| OutputResourcesCall (item : string) (direction : Direction)
| StopExecutionCall (item : string).

Record Env : Type := {
  world : World;
  calls : list Call
}.

(** Code that calls into items: a state monad over [Env]. *)
Definition M (A : Type) : Type := Env -> A * Env.

Definition ret {A} (a : A) : M A := fun env => (a, env).

Definition bind {A B} (c : M A) (k : A -> M B) : M B :=
  fun env => let (a, env') := c env in k a env'.

Notation "'do' x <- c ; k" := (bind c (fun x => k))
  (at level 10, x name, c at level 100, k at level 200).

(** [item.execute(inputs, direction)] *)
Definition item_execute (item : ProjectItem) (inputs : list Resource)
    (direction : Direction) : M bool :=
  fun env =>
    let (ok, w) := execute item inputs direction (world env) in
    (ok, {| world := w;
            calls := calls env ++ [ExecuteCall (name item) inputs direction] |}).

(** [item.output_resources(direction)] *)
Definition item_output_resources (item : ProjectItem) (direction : Direction)
  : M (list Resource) :=
  fun env =>
    let (value, w) := output_resources item direction (world env) in
    (value, {| world := w;
               calls := calls env ++ [OutputResourcesCall (name item) direction] |}).

(** [item.stop_execution()] *)
Definition item_stop_execution (item : ProjectItem) : M unit :=
  fun env =>
    (tt, {| world := stop_execution item (world env);
            calls := calls env ++ [StopExecutionCall (name item)] |}).

(** ** [compute_fn] (lines 162-168)

    The closure made by [_make_solid_def] for one item, one direction and
    one permit. It either yields [Output(value=..., output_name="result")]
    or raises [Failure]. [self_state] is what [self.state()] returns when
    the body runs. *)
Inductive ComputeResult : Type :=
| Output (value : list Resource) (output_name : string)
| Failure.

Definition compute_fn (self_state : SpineEngineState) (item : ProjectItem)
    (direction : Direction) (execute : bool)
    (inputs : dict (list Resource)) : M ComputeResult :=
  if existsb (state_eqb self_state) [USER_STOPPED; FAILED] then ret Failure
  else
    let inputs := flat_map (fun values => values) (values inputs) in
    do refused <- (if execute
                   then do ok <- item_execute item inputs direction ; ret (negb ok)
                   else ret false) ;
    if refused then ret Failure
    else do value <- item_output_resources item direction ;
         ret (Output value "result").

(** ** Solids and pipelines, as the engine hands them to dagster *)

Record SolidDefinition : Type := {
  solid_def_name : string;
  input_defs : list string;
  solid_compute_fn : SpineEngineState -> dict (list Resource) -> M ComputeResult;
  output_defs : list string
}.

Record PipelineDefinition : Type := {
  pipeline_name : string;
  solid_defs : list SolidDefinition;
  dependencies : dict (dict DependencyDefinition)
}.

(** [f"input_from_{n}"] *)
Definition input_from (n : string) : string := String.append "input_from_" n.

(** [_make_solid_def] (lines 149-174). The record holds what the source
    hands to dagster's [InputDefinition], [OutputDefinition] and
    [SolidDefinition]. The checks that these constructors make of their
    arguments are dagster's and are left out: the function is total, where
    the source may raise a dagster error. *)
Definition _make_solid_def (item : ProjectItem) (injectors : dict (list string))
    (direction : Direction) (execute : bool) : SolidDefinition :=
  {| solid_def_name := short_name item;
     input_defs := map input_from (get_or injectors (short_name item) []);
     solid_compute_fn :=
       fun self_state inputs => compute_fn self_state item direction execute inputs;
     output_defs := ["result"] |}.

(** [_make_dependencies] (lines 176-190) *)
Definition _make_dependencies (injectors : dict (list string))
  : dict (dict DependencyDefinition) :=
  dict_of
    (map (fun entry =>
            (fst entry,
             dict_of (map (fun n => (input_from n,
                                     {| dep_solid := n; dep_output := "result" |}))
                          (snd entry))))
         injectors).

(** ** The part of dagster the engine calls

    [PipelineDefinition(...)] checks its arguments and may raise;
    [execute_pipeline_iterator] returns a generator of events, and resuming
    it runs compute functions, which read the engine's state and call into
    items. *)
Record Dagster : Type := {
  definition_ok : PipelineDefinition -> bool;
  PipelineIterator : Type;
  execute_pipeline_iterator : PipelineDefinition -> PipelineIterator;
  next_event : PipelineIterator -> SpineEngineState ->
               M (option (DagsterEvent * PipelineIterator))
}.

(** ** The dependency scheduler

    The scheduler itself is dagster's and is not part of the sources; the
    definitions of this subsection follow section 4.2 of the specification
    and give one instance of [Dagster] on which whole runs can be computed. *)

(** Modelled from the spec: the terminal status of a node of dagster's
    scheduler: succeeded with its output, failed, or skipped. *)
Inductive StepStatus : Type :=
| Succeeded (value : list Resource)
| StepFailed
| StepSkipped.

(** Modelled from the spec: the statuses of a predecessor that make
    dagster skip its dependents. *)
Definition bad (st : StepStatus) : Prop := st = StepFailed \/ st = StepSkipped.

(** Modelled from the spec: what dagster finds when it looks at a node's
    predecessors. *)
Inductive Readiness : Type :=
| NotReady
| MustSkip
| Ready (inputs : dict (list Resource)).

(** Modelled from the spec: dagster's input gathering for one node. A node
    is ready once every predecessor has a terminal status; it must be
    skipped when one of them failed or was skipped; otherwise its inputs
    are its predecessors' outputs, in predecessor-list order. *)
Fixpoint gather_inputs (status : dict StepStatus)
    (deps : dict DependencyDefinition) : Readiness :=
  match deps with
  | [] => Ready []
  | (input_name, dep) :: rest =>
      match lookup status (dep_solid dep) with
      | None => NotReady
      | Some st =>
          match gather_inputs status rest with
          | NotReady => NotReady
          | MustSkip => MustSkip
          | Ready inputs =>
              match st with
              | Succeeded value => Ready ((input_name, value) :: inputs)
              | _ => MustSkip
              end
          end
      end
  end.

(** Modelled from the spec: dagster's choice of the next node, the first
    one without a status whose predecessors all have one. *)
Fixpoint select_ready (deps : dict (dict DependencyDefinition))
    (status : dict StepStatus) (solids : list SolidDefinition)
  : option (SolidDefinition * Readiness) :=
  match solids with
  | [] => None
  | solid :: rest =>
      match lookup status (solid_def_name solid) with
      | Some _ => select_ready deps status rest
      | None =>
          match gather_inputs status (get_or deps (solid_def_name solid) []) with
          | NotReady => select_ready deps status rest
          | ready => Some (solid, ready)
          end
      end
  end.

(** Modelled from the spec: where dagster's event generator stands
    between two events: between nodes, about to run a started node's
    compute function, or about to report a node's success. *)
Inductive Phase : Type :=
| Idle
| Started (solid : SolidDefinition) (inputs : dict (list Resource))
| Succeeding (solid : SolidDefinition).

(** Modelled from the spec: the state of dagster's event generator for one
    pipeline. *)
Record ExecutionPlan : Type := {
  plan_pipeline : PipelineDefinition;
  plan_status : dict StepStatus;
  plan_phase : Phase
}.

(** Modelled from the spec: dagster's update of the generator state. *)
Definition plan_with (plan : ExecutionPlan) (status : dict StepStatus)
    (phase : Phase) : ExecutionPlan :=
  {| plan_pipeline := plan_pipeline plan;
     plan_status := status;
     plan_phase := phase |}.

(** Modelled from the spec: the event dagster yields about a node. *)
Definition step_event (t : DagsterEventType) (solid : SolidDefinition)
  : DagsterEvent :=
  {| event_type := t; solid_name := solid_def_name solid |}.

(** Modelled from the spec: one resumption of dagster's event generator,
    which yields one event. A ready node starts, then its compute function
    runs and it succeeds with its output or fails; a node with a failed or
    skipped predecessor is skipped without running its compute function. *)
Definition plan_next (plan : ExecutionPlan) (self_state : SpineEngineState)
  : M (option (DagsterEvent * ExecutionPlan)) :=
  let status := plan_status plan in
  match plan_phase plan with
  | Started solid inputs =>
      do result <- solid_compute_fn solid self_state inputs ;
      match result with
      | Output value _ =>
          ret (Some (step_event STEP_OUTPUT solid,
                     plan_with plan
                       (store status (solid_def_name solid) (Succeeded value))
                       (Succeeding solid)))
      | Failure =>
          ret (Some (step_event STEP_FAILURE solid,
                     plan_with plan
                       (store status (solid_def_name solid) StepFailed) Idle))
      end
  | Succeeding solid =>
      ret (Some (step_event STEP_SUCCESS solid, plan_with plan status Idle))
  | Idle =>
      match select_ready (dependencies (plan_pipeline plan)) status
                         (solid_defs (plan_pipeline plan)) with
      | None => ret None
      | Some (solid, Ready inputs) =>
          ret (Some (step_event STEP_START solid,
                     plan_with plan status (Started solid inputs)))
      | Some (solid, _) =>
          ret (Some (step_event STEP_SKIPPED solid,
                     plan_with plan
                       (store status (solid_def_name solid) StepSkipped) Idle))
      end
  end.

Definition mem (x : string) (xs : list string) : bool :=
  existsb (String.eqb x) xs.

Fixpoint distinct (xs : list string) : bool :=
  match xs with
  | [] => true
  | x :: rest => negb (mem x rest) && distinct rest
  end.

(** The predecessors of node [n] in a dependency dictionary. *)
Definition dep_solids (deps : dict (dict DependencyDefinition)) (n : string)
  : list string :=
  map dep_solid (values (get_or deps n [])).

(** Modelled from the spec: dagster's cycle check, which removes, round
    after round, the nodes whose predecessors are all removed already. *)
Fixpoint peel (rounds : nat) (deps : dict (dict DependencyDefinition))
    (todo removed : list string) : list string :=
  match rounds with
  | O => todo
  | S rounds' =>
      let free n := forallb (fun m => mem m removed) (dep_solids deps n) in
      peel rounds' deps
           (filter (fun n => negb (free n)) todo)
           (filter free todo ++ removed)
  end.

(** Modelled from the spec: the construction-time checks of dagster's
    [PipelineDefinition]: node names distinct, every dependency names a
    node, no cycle. *)
Definition check_definition (pipeline : PipelineDefinition) : bool :=
  let names := map solid_def_name (solid_defs pipeline) in
  let deps := dependencies pipeline in
  distinct names
  && forallb (fun n => mem n names) (keys deps)
  && forallb (fun n => forallb (fun m => mem m names) (dep_solids deps n))
             (keys deps)
  && match peel (List.length names) deps names [] with
     | [] => true
     | _ => false
     end.

(** Modelled from the spec: dagster, as far as the engine calls it. *)
Definition scheduler : Dagster :=
  {| definition_ok := check_definition;
     PipelineIterator := ExecutionPlan;
     execute_pipeline_iterator :=
       fun pipeline => {| plan_pipeline := pipeline;
                          plan_status := [];
                          plan_phase := Idle |};
     next_event := plan_next |}.

(** Modelled from the spec: the states dagster's generator can get to
    from a given one, by any number of resumptions, whatever the engine's
    state and the world are at each of them. *)
Inductive plan_reaches (plan : ExecutionPlan) : ExecutionPlan -> Prop :=
| reaches_here : plan_reaches plan plan
| reaches_next plan1 self_state env event plan2 env' :
    plan_reaches plan plan1 ->
    plan_next plan1 self_state env = (Some (event, plan2), env') ->
    plan_reaches plan plan2.

(** Modelled from the spec: the states dagster's generator for a pipeline
    can be in, from the fresh one on. *)
Definition plan_reachable (pipeline : PipelineDefinition) (plan : ExecutionPlan)
  : Prop :=
  plan_reaches (execute_pipeline_iterator scheduler pipeline) plan.

(** Modelled from the spec: the ordering and skip rules of dagster's
    scheduler, as an invariant. A node with a status has a status
    for each predecessor; it is skipped if one of them failed or was
    skipped; and a started node has no status yet and was ready with the
    inputs it was started on. *)
Definition plan_inv (plan : ExecutionPlan) : Prop :=
  let deps := dependencies (plan_pipeline plan) in
  let status := plan_status plan in
  (forall n st m,
      lookup status n = Some st -> In m (dep_solids deps n) ->
      lookup status m <> None)
  /\ (forall n st m st',
        lookup status n = Some st -> In m (dep_solids deps n) ->
        lookup status m = Some st' -> bad st' -> st = StepSkipped)
  /\ match plan_phase plan with
     | Started solid inputs =>
         lookup status (solid_def_name solid) = None
         /\ gather_inputs status (get_or deps (solid_def_name solid) [])
            = Ready inputs
     | _ => True
     end.

(** [depends_on deps b a]: node [b] depends on node [a], directly or
    through other nodes, in a dependency dictionary. *)
Inductive depends_on (deps : dict (dict DependencyDefinition))
  : string -> string -> Prop :=
| depends_direct b a :
    In a (dep_solids deps b) -> depends_on deps b a
| depends_through b c a :
    In c (dep_solids deps b) -> depends_on deps c a -> depends_on deps b a.

Variable dagster : Dagster.

(** [_make_pipeline] (lines 128-147). The permits are looked up item by
    item, in the order of the items; of dagster's checks only the one of
    [PipelineDefinition] is there, after all the solids are made. *)
Definition _make_pipeline (project_items : list ProjectItem)
    (injectors : dict (list string)) (direction : Direction)
    (execution_permits : dict bool) : Fallible PipelineDefinition :=
  try solid_defs <-
    try_map (fun item =>
               try permit <- getitem execution_permits (name item) ;
               inr (_make_solid_def item injectors direction permit))
            project_items ;
  let dependencies := _make_dependencies injectors in
  let pipeline :=
    {| pipeline_name := String.append (direction_str direction) "_pipeline";
       solid_defs := solid_defs;
       dependencies := dependencies |} in
  if definition_ok dagster pipeline then inr pipeline
  else inl DagsterInvalidDefinitionError.

(** ** [SpineEngine] *)

Record SpineEngine : Type := {
  _backward_pipeline : PipelineDefinition;
  _forward_pipeline : PipelineDefinition;
  _project_item_lookup : dict ProjectItem;
  _state : SpineEngineState;
  _running_item : option ProjectItem
}.

Definition set_state (self : SpineEngine) (s : SpineEngineState) : SpineEngine :=
  {| _backward_pipeline := _backward_pipeline self;
     _forward_pipeline := _forward_pipeline self;
     _project_item_lookup := _project_item_lookup self;
     _state := s;
     _running_item := _running_item self |}.

Definition set_running_item (self : SpineEngine) (item : ProjectItem) : SpineEngine :=
  {| _backward_pipeline := _backward_pipeline self;
     _forward_pipeline := _forward_pipeline self;
     _project_item_lookup := _project_item_lookup self;
     _state := _state self;
     _running_item := Some item |}.

(** Lines 79-81 of [__init__]: the name table [d] and the two injector maps. *)
Definition short_names (project_items : list ProjectItem) : dict string :=
  dict_of (map (fun item => (name item, short_name item)) project_items).

Definition make_back_injectors (d : dict string) (successors : dict (list string))
  : Fallible (dict (list string)) :=
  try pairs <-
    try_map (fun entry =>
               try key <- getitem d (fst entry) ;
               try value <- try_map (getitem d) (snd entry) ;
               inr (key, value))
            successors ;
  inr (dict_of pairs).

(** What [make_back_injectors] computes for one entry of [successors]:
    [pair] is [entry] with every name replaced by its short name. *)
Definition translated (d : dict string) (entry pair : string * list string) : Prop :=
  getitem d (fst entry) = inr (fst pair)
  /\ try_map (getitem d) (snd entry) = inr (snd pair).

Definition make_injectors (project_items : list ProjectItem)
    (successors : dict (list string))
  : Fallible (dict (list string) * dict (list string)) :=
  let d := short_names project_items in
  try back_injectors <- make_back_injectors d successors ;
  let forth_injectors := _inverted back_injectors in
  inr (back_injectors, forth_injectors).

(** [__init__] (lines 67-86) *)
Definition __init__ (project_items : list ProjectItem)
    (successors : dict (list string)) (execution_permits : dict bool)
  : Fallible SpineEngine :=
  try injectors <- make_injectors project_items successors ;
  let back_injectors := fst injectors in
  let forth_injectors := snd injectors in
  try backward_pipeline <-
    _make_pipeline project_items back_injectors backward execution_permits ;
  try forward_pipeline <-
    _make_pipeline project_items forth_injectors forward execution_permits ;
  inr {| _backward_pipeline := backward_pipeline;
         _forward_pipeline := forward_pipeline;
         _project_item_lookup :=
           dict_of (map (fun item => (short_name item, item)) project_items);
         _state := SLEEPING;
         _running_item := None |}.

(** [state] (lines 88-89) *)
Definition state (self : SpineEngine) : SpineEngineState := _state self.

(** [stop] (lines 121-126) *)
Definition stop (self : SpineEngine) : M SpineEngine :=
  let self := set_state self USER_STOPPED in
  match _running_item self with
  | Some item => do _u <- item_stop_execution item ; ret self
  | None => ret self
  end.

(** ** [run] (lines 103-119) *)

(** The body of the [for event in ...] loop. *)
Definition handle_event (self : SpineEngine) (event : DagsterEvent)
  : Fallible SpineEngine :=
  match event_type event with
  | STEP_START =>
      try item <- getitem (_project_item_lookup self) (solid_name event) ;
      inr (set_running_item self item)
  | STEP_FAILURE =>
      try item <- getitem (_project_item_lookup self) (solid_name event) ;
      let self := set_running_item self item in
      inr (if negb (state_eqb (_state self) USER_STOPPED)
           then set_state self FAILED
           else self)
  | _ => inr self
  end.

(** [itertools.chain]: the iterators still to be drained, first one first. *)
Fixpoint chain_next (events : list (PipelineIterator dagster))
    (self_state : SpineEngineState)
  : M (option (DagsterEvent * list (PipelineIterator dagster))) :=
  match events with
  | [] => ret None
  | it :: rest =>
      do r <- next_event dagster it self_state ;
      match r with
      | Some (event, it') => ret (Some (event, it' :: rest))
      | None => chain_next rest self_state
      end
  end.

(** How a call of [run] ends: it returns, or an exception leaves it. *)
Inductive Outcome : Type :=
| Returned (self : SpineEngine) (env : Env)
| Raised (e : Error) (self : SpineEngine) (env : Env).

(** The loop, one event per unit of fuel ([None]: the fuel ran out). *)
Fixpoint run_loop (fuel : nat) (events : list (PipelineIterator dagster))
    (self : SpineEngine) (env : Env) : option Outcome :=
  match fuel with
  | O => None
  | S fuel' =>
      match chain_next events (_state self) env with
      | (None, env') => Some (Returned self env')
      | (Some (event, events'), env') =>
          match handle_event self event with
          | inl e => Some (Raised e self env')
          | inr self' => run_loop fuel' events' self' env'
          end
      end
  end.

(** Line 106, and the two generators handed to [chain]. *)
Definition run_start (self : SpineEngine)
  : SpineEngine * list (PipelineIterator dagster) :=
  let self := set_state self RUNNING in
  (self, [execute_pipeline_iterator dagster (_backward_pipeline self);
          execute_pipeline_iterator dagster (_forward_pipeline self)]).

(** Lines 118-119. *)
Definition run_finish (self : SpineEngine) : SpineEngine :=
  if state_eqb (_state self) RUNNING then set_state self COMPLETED else self.

Definition run (fuel : nat) (self : SpineEngine) (env : Env) : option Outcome :=
  let (self, events) := run_start self in
  match run_loop fuel events self env with
  | Some (Returned self env') => Some (Returned (run_finish self) env')
  | other => other
  end.

(** ** Runs that other threads interrupt with [stop]

    [stop] is meant to be called from another thread while [run] is in its
    loop. The relation below gives the runs that return, with what happened
    along the way: an event was taken from the iterator and handled, or
    another thread called [stop], either between two events or while the
    iterator was being resumed (an item was running). The body of the loop
    is taken as one step. *)
Inductive Obs : Type :=
| ObsEvent (event : DagsterEvent)
| ObsStop.

Inductive loop_runs : list (PipelineIterator dagster) -> SpineEngine -> Env ->
                      list Obs -> SpineEngine -> Env -> Prop :=
| loop_exhausted events self env env' :
    chain_next events (_state self) env = (None, env') ->
    loop_runs events self env [] self env'
| loop_event events self env event events' env1 self1 trace self' env' :
    chain_next events (_state self) env = (Some (event, events'), env1) ->
    handle_event self event = inr self1 ->
    loop_runs events' self1 env1 trace self' env' ->
    loop_runs events self env (ObsEvent event :: trace) self' env'
| loop_stop events self env self1 env1 trace self' env' :
    stop self env = (self1, env1) ->
    loop_runs events self1 env1 trace self' env' ->
    loop_runs events self env (ObsStop :: trace) self' env'
| loop_stop_during events self env event events' env1 self1 env2 self2
                   trace self' env' :
    chain_next events (_state self) env = (Some (event, events'), env1) ->
    stop self env1 = (self1, env2) ->
    handle_event self1 event = inr self2 ->
    loop_runs events' self2 env2 trace self' env' ->
    loop_runs events self env (ObsStop :: ObsEvent event :: trace) self' env'.

(** What a trace says about the run: whether [stop] was called, and
    whether a node failed. *)
Definition is_stop (o : Obs) : bool :=
  match o with
  | ObsStop => true
  | ObsEvent _ => false
  end.

Definition is_failure (o : Obs) : bool :=
  match o with
  | ObsEvent event =>
      match event_type event with
      | STEP_FAILURE => true
      | _ => false
      end
  | ObsStop => false
  end.

Definition stop_seen (trace : list Obs) : bool := existsb is_stop trace.
Definition failure_seen (trace : list Obs) : bool := existsb is_failure trace.

(** The transitions of section 4.3 of the specification: [stop] sets
    [USER_STOPPED]; a failed node sets [FAILED] unless the state is
    [USER_STOPPED] already; nothing else changes the state. *)
Definition transition (s : SpineEngineState) (o : Obs) : SpineEngineState :=
  if is_stop o then USER_STOPPED
  else if is_failure o then (if state_eqb s USER_STOPPED then s else FAILED)
  else s.

Definition runs (self : SpineEngine) (env : Env) (trace : list Obs)
    (self' : SpineEngine) (env' : Env) : Prop :=
  exists self1,
    loop_runs (snd (run_start self)) (fst (run_start self)) env trace self1 env'
    /\ self' = run_finish self1.

End Engine.

Arguments name {Resource World} _.
Arguments short_name {Resource World} _.
Arguments solid_def_name {Resource World} _.

(** ** A small project to run the definitions on

    Resources are strings, the world counts the [execute] calls made. *)
Module Sample.

Definition item (n sn : string) (succeeds : bool) : ProjectItem string nat :=
  {| name := n;
     short_name := sn;
     execute := fun _ _ w => (succeeds, S w);
     output_resources := fun _ w => ([String.append "res_" sn], w);
     stop_execution := fun w => w |}.

Definition A := item "Item A" "item_a" true.
Definition B := item "Item B" "item_b" true.
Definition C := item "Item C" "item_c" true.
Definition D := item "Item D" "item_d" true.
Definition Bad := item "Item B" "item_b" false.

Definition env0 : Env string nat := {| world := 0; calls := [] |}.

Definition chain_AB : dict (list string) := [("Item A", ["Item B"])].
Definition diamond : dict (list string) :=
  [("Item A", ["Item B"; "Item C"]); ("Item B", ["Item D"]);
   ("Item C", ["Item D"]); ("Item D", [])].

Definition solo : dict (list string) := [("Item A", [])].
Definition dangling : dict (list string) := [("Item A", ["Item Z"])].

Definition permits (b : bool) : dict bool :=
  [("Item A", b); ("Item B", true); ("Item C", true); ("Item D", true)].

Definition dagster : Dagster string nat := scheduler string nat.

Definition step (t : DagsterEventType) (n : string) : Obs :=
  ObsEvent {| event_type := t; solid_name := n |}.

(** The final state and the world and call log that a run of a project
    leaves; with [stop_first], [stop] is called before [run]. *)
Definition outcome (stop_first : bool) (items : list (ProjectItem string nat))
    (successors : dict (list string)) (execution_permits : dict bool)
  : option (SpineEngineState * Env string nat) :=
  match __init__ dagster items successors execution_permits with
  | inl _ => None
  | inr self =>
      let (self, env) := if stop_first then stop self env0 else (self, env0) in
      match run dagster 100 self env with
      | Some (Returned self' env') => Some (state self', env')
      | _ => None
      end
  end.

(** A run of the one-item project during which another thread calls
    [stop] while the item executes in the backward pass. *)
Definition stopped_trace : list Obs :=
  [step STEP_START "item_a"; ObsStop; step STEP_OUTPUT "item_a";
   step STEP_SUCCESS "item_a"; step STEP_START "item_a";
   step STEP_FAILURE "item_a"].

End Sample.

(** ** Further notions used to state properties *)

(** The names that occur in [successors], as keys or in the lists. *)
Definition occurs_in (successors : dict (list string)) (x : string) : Prop :=
  exists key value, In (key, value) successors /\ (x = key \/ In x value).

(** The solid that an observation makes the engine record as running:
    the loop of [run] records one on [STEP_START] and on [STEP_FAILURE]. *)
Definition names_item (o : Obs) : option string :=
  match o with
  | ObsEvent event =>
      match event_type event with
      | STEP_START | STEP_FAILURE => Some (solid_name event)
      | _ => None
      end
  | ObsStop => None
  end.

(** The last solid that a trace makes the engine record, if any. *)
Fixpoint last_step (trace : list Obs) : option string :=
  match trace with
  | [] => None
  | o :: rest =>
      match last_step rest with
      | Some n => Some n
      | None => names_item o
      end
  end.

(** Two engines with the same pipelines and lookup table. *)
Definition same_graph {Resource World : Type}
    (self self' : SpineEngine Resource World) : Prop :=
  _backward_pipeline self' = _backward_pipeline self
  /\ _forward_pipeline self' = _forward_pipeline self
  /\ _project_item_lookup self' = _project_item_lookup self.

(** The log of item calls of [env'] continues the log of [env]. *)
Definition log_extends {Resource World : Type} (env env' : Env Resource World)
  : Prop :=
  exists more, calls env' = calls env ++ more.

(** A solid whose compute function only adds to the log of item calls. *)
Definition appending {Resource World : Type}
    (solid : SolidDefinition Resource World) : Prop :=
  forall self_state inputs env,
    log_extends env (snd (solid_compute_fn solid self_state inputs env)).

(** A generator state of the scheduler all of whose solids are [appending]. *)
Definition plan_appends {Resource World : Type}
    (plan : ExecutionPlan Resource World) : Prop :=
  Forall appending (solid_defs (plan_pipeline plan))
  /\ match plan_phase plan with
     | Started solid _ => appending solid
     | _ => True
     end.

(** [run] from inside its loop: the rest of the loop, then lines 118-119. *)
Definition run_rest {Resource World : Type} (dagster : Dagster Resource World)
    (fuel : nat) (events : list (PipelineIterator dagster))
    (self : SpineEngine Resource World) (env : Env Resource World)
  : option (Outcome Resource World) :=
  match run_loop dagster fuel events self env with
  | Some (Returned self env') => Some (Returned (run_finish self) env')
  | other => other
  end.

(** The first call that [compute_fn] makes on its item when it gets past
    the check of the engine's state and has no inputs. *)
Definition first_call {Resource World : Type} (item : ProjectItem Resource World)
    (direction : Direction) (permit : bool) : Call Resource :=
  if permit then ExecuteCall (name item) [] direction
  else OutputResourcesCall Resource (name item) direction.

(** * Properties *)

(** ** Dictionaries *)

Section DictFacts.

Variable V : Type.
Implicit Types (d : dict V) (k : string) (v : V).

Lemma lookup_store_same d k v : lookup (store d k v) k = Some v.
Proof.
  induction d as [|[k' v'] rest IH]; simpl.
  - now rewrite String.eqb_refl.
  - destruct (String.eqb k k') eqn:E; simpl; rewrite E; auto.
Qed.

Lemma lookup_store_other d k k' v :
  k' <> k -> lookup (store d k v) k' = lookup d k'.
Proof.
  intros Hne. induction d as [|[k0 v0] rest IH]; simpl.
  - apply String.eqb_neq in Hne. now rewrite Hne.
  - destruct (String.eqb k k0) eqn:E; simpl.
    + apply String.eqb_eq in E. subst k0.
      apply String.eqb_neq in Hne. now rewrite Hne.
    + now rewrite IH.
Qed.

Lemma lookup_None_keys d k : lookup d k = None <-> ~ In k (keys d).
Proof.
  induction d as [|[k' v'] rest IH]; simpl.
  - tauto.
  - destruct (String.eqb_spec k k') as [->|Hne].
    + split; [discriminate | intros H; exfalso; apply H; now left].
    + rewrite IH. split; intros H.
      * intros [<-|Hin]; [now apply Hne | now apply H].
      * intros Hin. apply H. now right.
Qed.

Lemma lookup_Some_In d k v : lookup d k = Some v -> In (k, v) d.
Proof.
  induction d as [|[k' v'] rest IH]; simpl; [discriminate|].
  destruct (String.eqb_spec k k') as [->|Hne].
  - intros [= ->]. now left.
  - intros H. right. auto.
Qed.

Lemma In_lookup_wf d k v : wf d -> In (k, v) d -> lookup d k = Some v.
Proof.
  unfold wf. induction d as [|[k' v'] rest IH]; simpl; [tauto|].
  intros Hnd [Heq|Hin].
  - injection Heq as -> ->. now rewrite String.eqb_refl.
  - inversion Hnd as [|? ? Hout Hnd']; subst.
    destruct (String.eqb_spec k k') as [->|Hne].
    + exfalso. apply Hout. change (In (fst (k', v)) (map fst rest)).
      now apply in_map.
    + auto.
Qed.

Lemma keys_store_old d k v :
  In k (keys d) -> keys (store d k v) = keys d.
Proof.
  induction d as [|[k' v'] rest IH]; simpl; [tauto|].
  intros Hin. destruct (String.eqb_spec k k') as [->|Hne]; simpl.
  - reflexivity.
  - f_equal. apply IH. destruct Hin as [<-|Hin]; [now elim Hne | exact Hin].
Qed.

Lemma keys_store_new d k v :
  ~ In k (keys d) -> store d k v = d ++ [(k, v)].
Proof.
  induction d as [|[k' v'] rest IH]; simpl; [reflexivity|].
  intros Hout. destruct (String.eqb_spec k k') as [->|Hne]; simpl.
  - exfalso. apply Hout. now left.
  - f_equal. apply IH. intros Hin. apply Hout. now right.
Qed.

Lemma wf_store d k v : wf d -> wf (store d k v).
Proof.
  unfold wf. intros Hwf.
  destruct (in_dec string_dec k (keys d)) as [Hin|Hout].
  - now rewrite keys_store_old.
  - rewrite keys_store_new by exact Hout. unfold keys. rewrite map_app. simpl.
    apply NoDup_app; [exact Hwf | repeat constructor; simpl; tauto |].
    intros x Hx [<-|[]]. now apply Hout.
Qed.

Lemma store_fold_wf (pairs : list (string * V)) d :
  wf d -> wf (fold_left (fun d kv => store d (fst kv) (snd kv)) pairs d).
Proof.
  revert d. induction pairs as [|[k v] rest IH]; simpl; intros d Hwf; auto.
  apply IH. now apply wf_store.
Qed.

Lemma wf_dict_of (pairs : list (string * V)) : wf (dict_of pairs).
Proof. apply store_fold_wf. constructor. Qed.

(** A comprehension over pairs with distinct keys is the list of pairs. *)
Lemma store_fold_distinct (pairs : list (string * V)) d :
  NoDup (keys d ++ keys pairs) ->
  fold_left (fun d kv => store d (fst kv) (snd kv)) pairs d = d ++ pairs.
Proof.
  revert d. induction pairs as [|[k v] rest IH]; simpl; intros d Hnd.
  - now rewrite app_nil_r.
  - assert (Hout : ~ In k (keys d)).
    { apply NoDup_remove_2 in Hnd. intros Hin. apply Hnd.
      apply in_or_app. now left. }
    rewrite keys_store_new by exact Hout.
    rewrite IH.
    + now rewrite <- app_assoc.
    + unfold keys in *. rewrite map_app. simpl. now rewrite <- app_assoc.
Qed.

Lemma dict_of_distinct (pairs : list (string * V)) :
  NoDup (keys pairs) -> dict_of pairs = pairs.
Proof. intros H. unfold dict_of. now rewrite store_fold_distinct. Qed.

Lemma keys_store_fold (pairs : list (string * V)) d k :
  In k (keys (fold_left (fun d kv => store d (fst kv) (snd kv)) pairs d))
  <-> In k (keys d) \/ In k (keys pairs).
Proof.
  revert d. induction pairs as [|[k0 v0] rest IH]; simpl; intros d.
  - tauto.
  - rewrite IH.
    destruct (in_dec string_dec k0 (keys d)) as [Hin|Hout].
    + rewrite keys_store_old by exact Hin.
      split; [tauto | intros [H|[<-|H]]; tauto].
    + rewrite keys_store_new by exact Hout. unfold keys at 1.
      rewrite map_app, in_app_iff. simpl. tauto.
Qed.

Lemma keys_dict_of (pairs : list (string * V)) k :
  In k (keys (dict_of pairs)) <-> In k (keys pairs).
Proof. unfold dict_of. rewrite keys_store_fold. simpl. tauto. Qed.

End DictFacts.

(** ** [_inverted] *)

Section InvertedFacts.

Implicit Types (m output : dict (list string)) (k v key value : string).

Lemma setdefault_append_store output value key :
  setdefault_append output value key
  = store output value (get_or output value [] ++ [key]).
Proof.
  unfold setdefault_append, get_or. now destruct (lookup output value).
Qed.

Lemma wf_setdefault_append output value key :
  wf output -> wf (setdefault_append output value key).
Proof. rewrite setdefault_append_store. apply wf_store. Qed.

Lemma wf_inverted_values key value_list output :
  wf output -> wf (_inverted_values key value_list output).
Proof.
  unfold _inverted_values. revert output.
  induction value_list as [|value rest IH]; simpl; intros output Hwf; auto.
  apply IH. now apply wf_setdefault_append.
Qed.

Lemma wf_inverted_items m output :
  wf output -> wf (_inverted_items m output).
Proof.
  unfold _inverted_items. revert output.
  induction m as [|[key value_list] rest IH]; simpl; intros output Hwf; auto.
  apply IH. now apply wf_inverted_values.
Qed.

Lemma wf_inverted m : wf (_inverted m).
Proof. apply wf_inverted_items. constructor. Qed.

Lemma get_or_store_same (d : dict (list string)) k l :
  get_or (store d k l) k [] = l.
Proof. unfold get_or. now rewrite lookup_store_same. Qed.

Lemma get_or_store_other (d : dict (list string)) k k' l :
  k' <> k -> get_or (store d k l) k' [] = get_or d k' [].
Proof. intros H. unfold get_or. now rewrite lookup_store_other. Qed.

Lemma mult_setdefault_append output value key v k :
  mult (setdefault_append output value key) v k
  = mult output v k
    + (if String.eqb v value && String.eqb k key then 1 else 0).
Proof.
  unfold mult. rewrite setdefault_append_store.
  destruct (String.eqb_spec v value) as [->|Hne]; simpl.
  - rewrite get_or_store_same, count_occ_app. f_equal. simpl.
    destruct (string_dec key k) as [->|Hk].
    + now rewrite String.eqb_refl.
    + destruct (String.eqb_spec k key); [congruence | reflexivity].
  - rewrite get_or_store_other by exact Hne. lia.
Qed.

Lemma mult_inverted_values key value_list output v k :
  mult (_inverted_values key value_list output) v k
  = mult output v k
    + (if String.eqb k key then count_occ string_dec value_list v else 0).
Proof.
  unfold _inverted_values. revert output.
  induction value_list as [|value rest IH]; simpl; intros output.
  - destruct (String.eqb k key); lia.
  - rewrite IH, mult_setdefault_append.
    destruct (String.eqb k key) eqn:Ek.
    + destruct (string_dec value v) as [Hv|Hv].
      * subst value. rewrite String.eqb_refl. simpl. lia.
      * destruct (String.eqb_spec v value); [congruence | simpl; lia].
    + rewrite andb_false_r. lia.
Qed.

Lemma mult_cons_same key value_list (rest : dict (list string)) v :
  mult ((key, value_list) :: rest) key v = count_occ string_dec value_list v.
Proof. unfold mult, get_or. simpl. now rewrite String.eqb_refl. Qed.

Lemma mult_cons_other key value_list (rest : dict (list string)) k v :
  k <> key -> mult ((key, value_list) :: rest) k v = mult rest k v.
Proof.
  intros H. unfold mult, get_or. simpl.
  apply String.eqb_neq in H. now rewrite H.
Qed.

Lemma mult_absent m k v : ~ In k (keys m) -> mult m k v = 0.
Proof.
  intros H. apply lookup_None_keys in H. unfold mult, get_or. now rewrite H.
Qed.

(** Each pass of the outer loop adds the edges of one entry, reversed. *)
Lemma mult_inverted_items m output v k :
  wf m ->
  mult (_inverted_items m output) v k = mult output v k + mult m k v.
Proof.
  unfold _inverted_items, wf. revert output.
  induction m as [|[key value_list] rest IH]; simpl; intros output Hwf.
  - unfold mult at 3. simpl. lia.
  - inversion Hwf as [|? ? Hout Hwf']; subst.
    rewrite IH by exact Hwf'. rewrite mult_inverted_values.
    destruct (String.eqb_spec k key) as [->|Hk].
    + rewrite mult_cons_same, (mult_absent rest key v Hout). lia.
    + rewrite mult_cons_other by exact Hk. lia.
Qed.

Lemma mult_inverted m k v : wf m -> mult (_inverted m) v k = mult m k v.
Proof.
  intros Hwf. unfold _inverted. rewrite mult_inverted_items by exact Hwf.
  reflexivity.
Qed.

(** [_inverted] never leaves an empty list behind. *)
Lemma no_empty_setdefault_append output value key :
  no_empty_entry output -> no_empty_entry (setdefault_append output value key).
Proof.
  intros H v l. rewrite setdefault_append_store.
  destruct (string_dec v value) as [->|Hne].
  - rewrite lookup_store_same. intros [= <-].
    now destruct (get_or output value []).
  - rewrite lookup_store_other by exact Hne. apply H.
Qed.

Lemma no_empty_inverted_items m output :
  no_empty_entry output -> no_empty_entry (_inverted_items m output).
Proof.
  unfold _inverted_items. revert output.
  induction m as [|[key value_list] rest IH]; simpl; intros output H; auto.
  apply IH. unfold _inverted_values. clear IH. revert output H.
  induction value_list as [|value more IH]; simpl; intros output H; auto.
  apply IH. now apply no_empty_setdefault_append.
Qed.

Lemma no_empty_inverted m : no_empty_entry (_inverted m).
Proof. apply no_empty_inverted_items. intros v l. discriminate. Qed.

Lemma edge_mult m k v : edge m k v <-> mult m k v > 0.
Proof. unfold edge, mult. apply count_occ_In. Qed.

Lemma edge_inverted m k v : wf m -> (edge (_inverted m) v k <-> edge m k v).
Proof. intros H. now rewrite !edge_mult, mult_inverted. Qed.

Lemma mult_zero_nil (l : list string) :
  (forall v, count_occ string_dec l v = 0) -> l = [].
Proof.
  destruct l as [|x rest]; auto. intros H. specialize (H x). simpl in H.
  destruct (string_dec x x); [discriminate | congruence].
Qed.

End InvertedFacts.

(** C8, as amended: inverting a successor map twice gives back the same
    edges, each as many times as before. What is not given back is the
    map itself: a key whose list is empty is gone, and the lists may come
    back in another order. *)
Theorem inverted_twice_same_edges :
  forall m : dict (list string),
    wf m ->
    forall k : string,
      (forall v, mult (_inverted (_inverted m)) k v = mult m k v)
      /\ (lookup (_inverted (_inverted m)) k = None <-> get_or m k [] = []).
Proof.
  intros m Hwf k.
  assert (Hm : forall v, mult (_inverted (_inverted m)) k v = mult m k v).
  { intros v. rewrite mult_inverted by apply wf_inverted.
    now apply mult_inverted. }
  split; [exact Hm|]. split.
  - intros Hnone. apply mult_zero_nil. intros v.
    change (mult m k v = 0). rewrite <- Hm. unfold mult, get_or.
    now rewrite Hnone.
  - intros Hnil.
    destruct (lookup (_inverted (_inverted m)) k) as [l|] eqn:E; auto.
    exfalso. apply (no_empty_inverted (_inverted m) k E).
    apply mult_zero_nil. intros v. specialize (Hm v).
    unfold mult in Hm. rewrite Hnil in Hm. unfold get_or in Hm.
    rewrite E in Hm. exact Hm.
Qed.

Lemma inverted_twice_same_edges_witness :
  wf [("A", ["X"]); ("B", ["Y"; "X"])]
  /\ forall k : string,
      (forall v, mult (_inverted (_inverted [("A", ["X"]); ("B", ["Y"; "X"])])) k v
                 = mult [("A", ["X"]); ("B", ["Y"; "X"])] k v)
      /\ (lookup (_inverted (_inverted [("A", ["X"]); ("B", ["Y"; "X"])])) k = None
          <-> get_or [("A", ["X"]); ("B", ["Y"; "X"])] k [] = []).
Proof.
  assert (H : wf [("A", ["X"]); ("B", ["Y"; "X"])]).
  { unfold wf. simpl. repeat constructor; simpl; intuition discriminate. }
  split; [exact H | exact (inverted_twice_same_edges H)].
Defined.

(** C8, as stated, fails: a key with an empty list is lost, and a list can
    come back reordered. *)
Lemma inverted_twice_not_identity :
  _inverted (_inverted [("A", [])]) <> [("A", [])]
  /\ lookup (_inverted (_inverted [("A", [])])) "A" = None
  /\ lookup (_inverted (_inverted [("A", ["X"]); ("B", ["Y"; "X"])])) "B"
     = Some ["X"; "Y"].
Proof. repeat split; [discriminate]. Qed.

(** ** Construction *)

Section FallibleFacts.

Variables A B : Type.
Variable f : A -> Fallible B.

Lemma try_map_inr xs ys :
  try_map f xs = inr ys -> Forall2 (fun x y => f x = inr y) xs ys.
Proof.
  revert ys. induction xs as [|x rest IH]; simpl; intros ys H.
  - injection H as <-. constructor.
  - destruct (f x) as [e|y] eqn:Ex; simpl in H; [discriminate|].
    destruct (try_map f rest) as [e|ys'] eqn:Er; simpl in H; [discriminate|].
    injection H as <-. constructor; auto.
Qed.

Lemma try_map_inl xs e :
  try_map f xs = inl e -> exists x, In x xs /\ f x = inl e.
Proof.
  induction xs as [|x rest IH]; simpl; intros H; [discriminate|].
  destruct (f x) as [e'|y] eqn:Ex; simpl in H.
  - injection H as ->. exists x. auto.
  - destruct (try_map f rest) as [e'|ys'] eqn:Er; simpl in H; [|discriminate].
    injection H as ->. destruct (IH eq_refl) as (x' & Hin & Hx'). eauto.
Qed.

Lemma try_map_fails xs x e :
  In x xs -> f x = inl e -> exists e', try_map f xs = inl e'.
Proof.
  induction xs as [|x0 rest IH]; simpl; intros Hin Hx; [tauto|].
  destruct Hin as [->|Hin].
  - rewrite Hx. simpl. eauto.
  - destruct (f x0); simpl; eauto.
    destruct (IH Hin Hx) as (e' & ->). simpl. eauto.
Qed.

End FallibleFacts.

Lemma NoDup_map_injective {A B : Type} (f : A -> B) (l : list A) (a b : A) :
  NoDup (map f l) -> In a l -> In b l -> f a = f b -> a = b.
Proof.
  induction l as [|x rest IH]; simpl; intros Hnd Ha Hb Hf; [tauto|].
  inversion Hnd as [|? ? Hout Hnd']; subst.
  destruct Ha as [->|Ha], Hb as [->|Hb]; auto.
  - exfalso. apply Hout. rewrite Hf. now apply in_map.
  - exfalso. apply Hout. rewrite <- Hf. now apply in_map.
Qed.

Section ConstructionFacts.

Variables (Resource World : Type).
Variable dagster : Dagster Resource World.
Local Abbreviation Item := (ProjectItem Resource World).
Implicit Types (project_items : list Item) (item : Item)
         (successors : dict (list string)).

Lemma keys_short_names project_items :
  forall x, In x (keys (short_names project_items)) <-> In x (map name project_items).
Proof.
  intros x. unfold short_names. rewrite keys_dict_of. unfold keys.
  now rewrite map_map.
Qed.

Lemma getitem_short_names_unknown project_items x :
  ~ In x (map name project_items) ->
  getitem (short_names project_items) x = inl (KeyError x).
Proof.
  intros H. unfold getitem.
  rewrite <- keys_short_names in H. apply lookup_None_keys in H. now rewrite H.
Qed.

Lemma getitem_error {V} (d : dict V) x e :
  getitem d x = inl e -> e = KeyError x.
Proof. unfold getitem. destruct (lookup d x); congruence. Qed.

Lemma getitem_inr {V} (d : dict V) x v :
  getitem d x = inr v <-> lookup d x = Some v.
Proof. unfold getitem. destruct (lookup d x); split; congruence. Qed.

(** With distinct item names, [d] is the list of (name, short name) pairs. *)
Lemma short_names_distinct project_items :
  NoDup (map name project_items) ->
  short_names project_items
  = map (fun item => (name item, short_name item)) project_items.
Proof.
  intros H. unfold short_names. apply dict_of_distinct.
  unfold keys. now rewrite map_map.
Qed.

Lemma lookup_short_names project_items x s :
  NoDup (map name project_items) ->
  (lookup (short_names project_items) x = Some s
   <-> exists item, In item project_items /\ name item = x /\ short_name item = s).
Proof.
  intros Hnd. rewrite short_names_distinct by exact Hnd. split.
  - intros H. apply lookup_Some_In in H. apply in_map_iff in H.
    destruct H as (item & [= <- <-] & Hin). eauto.
  - intros (item & Hin & <- & <-). apply In_lookup_wf.
    + unfold wf, keys. now rewrite map_map.
    + apply in_map_iff. eauto.
Qed.

Lemma short_names_injective project_items x y s :
  NoDup (map name project_items) -> NoDup (map short_name project_items) ->
  lookup (short_names project_items) x = Some s ->
  lookup (short_names project_items) y = Some s -> x = y.
Proof.
  intros Hn Hs Hx Hy.
  apply lookup_short_names in Hx; [|exact Hn].
  apply lookup_short_names in Hy; [|exact Hn].
  destruct Hx as (i1 & Hi1 & <- & <-), Hy as (i2 & Hi2 & <- & E).
  f_equal. symmetry. eapply NoDup_map_injective; eauto.
Qed.

(** The items behind a list of names that [d] translates. *)
Lemma try_map_short_names project_items names shorts :
  NoDup (map name project_items) ->
  try_map (getitem (short_names project_items)) names = inr shorts ->
  exists items, map name items = names /\ map short_name items = shorts
                /\ incl items project_items.
Proof.
  intros Hnd H. apply try_map_inr in H.
  induction H as [|x s names' shorts' Hx _ IH].
  - exists []. repeat split. intros ? [].
  - destruct IH as (items & Hn & Hs & Hincl).
    apply getitem_inr, lookup_short_names in Hx; [|exact Hnd].
    destruct Hx as (item & Hin & <- & <-).
    exists (item :: items). simpl. rewrite Hn, Hs. repeat split.
    intros i [<-|Hi]; auto.
Qed.

Lemma make_back_injectors_inr (d : dict string) successors back :
  make_back_injectors d successors = inr back ->
  exists pairs, Forall2 (translated d) successors pairs /\ back = dict_of pairs.
Proof.
  unfold make_back_injectors. intros H.
  match type of H with try_bind ?c _ = _ => destruct c as [e|pairs] eqn:E end;
    simpl in H; [discriminate|].
  injection H as <-. exists pairs. split; [|reflexivity].
  apply try_map_inr in E. clear - E.
  induction E as [|entry pair s p Hx _ IH]; constructor; auto.
  unfold translated.
  destruct (getitem d (fst entry)) as [e|key]; simpl in Hx; [discriminate|].
  destruct (try_map (getitem d) (snd entry)) as [e|value]; simpl in Hx;
    [discriminate|].
  injection Hx as <-. auto.
Qed.

Lemma Forall2_In_l {X Y} (R : X -> Y -> Prop) xs ys x :
  Forall2 R xs ys -> In x xs -> exists y, In y ys /\ R x y.
Proof.
  induction 1 as [|x0 y0 xs ys H0 _ IH]; simpl; [tauto|].
  intros [<-|Hin]; [eauto|]. destruct (IH Hin) as (y & Hy & HR). eauto.
Qed.

Lemma Forall2_In_r {X Y} (R : X -> Y -> Prop) xs ys y :
  Forall2 R xs ys -> In y ys -> exists x, In x xs /\ R x y.
Proof.
  induction 1 as [|x0 y0 xs ys H0 _ IH]; simpl; [tauto|].
  intros [<-|Hin]; [eauto|]. destruct (IH Hin) as (x & Hx & HR). eauto.
Qed.

Lemma translated_keys_distinct project_items successors pairs :
  NoDup (map name project_items) -> NoDup (map short_name project_items) ->
  wf successors ->
  Forall2 (translated (short_names project_items)) successors pairs ->
  NoDup (keys pairs).
Proof.
  intros Hn Hs Hwf H. unfold wf in Hwf.
  induction H as [|entry pair ss ps [Hk _] Hrest IH]; simpl; [constructor|].
  inversion Hwf as [|? ? Hout Hwf']; subst.
  constructor; [|now apply IH].
  intros Hin. apply Hout. apply in_map_iff in Hin.
  destruct Hin as (pair' & Hfst & Hin').
  destruct (@Forall2_In_r _ _ _ _ _ _ Hrest Hin') as (entry' & He' & Hk' & _).
  rewrite Hfst in Hk'. apply getitem_inr in Hk, Hk'.
  assert (fst entry = fst entry') as ->
    by (eapply short_names_injective; eauto).
  now apply in_map.
Qed.

Lemma make_injectors_inr project_items successors back forth :
  make_injectors project_items successors = inr (back, forth) ->
  make_back_injectors (short_names project_items) successors = inr back
  /\ forth = _inverted back.
Proof.
  unfold make_injectors. intros H.
  destruct (make_back_injectors (short_names project_items) successors)
    as [e|b]; simpl in H; [discriminate|].
  injection H as <- <-. auto.
Qed.

Lemma _make_pipeline_dependencies project_items injectors direction
    execution_permits pipeline :
  _make_pipeline dagster project_items injectors direction execution_permits
  = inr pipeline ->
  dependencies pipeline = _make_dependencies injectors.
Proof.
  unfold _make_pipeline. intros H.
  match type of H with try_bind ?c _ = _ => destruct c as [e|sd] end;
    simpl in H; [discriminate|].
  match type of H with (if ?c then _ else _) = _ => destruct c end;
    [|discriminate].
  injection H as <-. reflexivity.
Qed.

(** What a successful [__init__] has gone through. *)
Lemma init_inr project_items successors execution_permits self :
  __init__ dagster project_items successors execution_permits = inr self ->
  exists back forth,
    make_injectors project_items successors = inr (back, forth)
    /\ _make_pipeline dagster project_items back backward execution_permits
       = inr (_backward_pipeline self)
    /\ _make_pipeline dagster project_items forth forward execution_permits
       = inr (_forward_pipeline self)
    /\ _project_item_lookup self
       = dict_of (map (fun item => (short_name item, item)) project_items)
    /\ _state self = SLEEPING
    /\ _running_item self = None.
Proof.
  unfold __init__. intros H.
  destruct (make_injectors project_items successors) as [e|[back forth]];
    simpl in H; [discriminate|].
  destruct (_make_pipeline dagster project_items back backward execution_permits)
    as [e|bp] eqn:Eb; simpl in H; [discriminate|].
  destruct (_make_pipeline dagster project_items forth forward execution_permits)
    as [e|fp] eqn:Ef; simpl in H; [discriminate|].
  injection H as <-. exists back, forth. simpl. repeat split; auto.
Qed.

(** C9: a successor list that names something that is no item makes
    [__init__] raise [KeyError]; no engine is returned, so nothing can be
    run. *)
Theorem init_unknown_successor_raises :
  forall project_items successors (execution_permits : dict bool)
         (key : string) (value : list string) (x : string),
    In (key, value) successors ->
    In x value ->
    ~ In x (map name project_items) ->
    exists k, __init__ dagster project_items successors execution_permits
              = inl (KeyError k).
Proof.
  intros project_items successors execution_permits key value x Hentry Hx Hunknown.
  set (d := short_names project_items).
  assert (Hvalue : exists e, try_map (getitem d) value = inl e).
  { eapply try_map_fails; [exact Hx|].
    now apply getitem_short_names_unknown. }
  destruct Hvalue as (e & He).
  assert (Hpairs : exists e',
    try_map (fun entry : string * list string =>
               try key <- getitem d (fst entry) ;
               try value <- try_map (getitem d) (snd entry) ;
               inr (key, value)) successors = inl e').
  { assert (Hf : exists e0,
      (try key0 <- getitem d (fst (key, value)) ;
       try value0 <- try_map (getitem d) (snd (key, value)) ;
       inr (key0, value0)) = inl e0).
    { simpl. destruct (getitem d key) as [e0|k0]; simpl; [eauto|].
      rewrite He. simpl. eauto. }
    destruct Hf as (e0 & Hf).
    eapply try_map_fails; [exact Hentry | exact Hf]. }
  destruct Hpairs as (e' & He').
  assert (Hkey : exists k, e' = KeyError k).
  { apply try_map_inl in He'. destruct He' as ([key' value'] & _ & Hf).
    simpl in Hf.
    destruct (getitem d key') as [e0|k0] eqn:E0; simpl in Hf.
    - injection Hf as <-. apply getitem_error in E0. eauto.
    - destruct (try_map (getitem d) value') as [e1|v1] eqn:E1; simpl in Hf;
        [|discriminate].
      injection Hf as <-. apply try_map_inl in E1.
      destruct E1 as (y & _ & Hy). apply getitem_error in Hy. eauto. }
  destruct Hkey as (k & ->). exists k.
  unfold __init__, make_injectors, make_back_injectors. fold d.
  rewrite He'. reflexivity.
Qed.

(** C6: the injector maps that [__init__] builds and hands to the two
    pipelines. With item names and short names distinct, the backward map
    holds under each item's short name the short names of the item's
    successors, it has no other entry, and the forward map lists [a] under
    [b] exactly as often as the backward map lists [b] under [a], with no
    empty entry. *)
Theorem init_injector_maps :
  forall project_items successors (execution_permits : dict bool) self,
    NoDup (map name project_items) ->
    NoDup (map short_name project_items) ->
    wf successors ->
    __init__ dagster project_items successors execution_permits = inr self ->
    exists back_injectors forth_injectors,
      dependencies (_backward_pipeline self) = _make_dependencies back_injectors
      /\ dependencies (_forward_pipeline self) = _make_dependencies forth_injectors
      /\ (forall item names,
            In item project_items ->
            lookup successors (name item) = Some names ->
            exists succs,
              map name succs = names /\ incl succs project_items
              /\ lookup back_injectors (short_name item)
                 = Some (map short_name succs)
              /\ (forall s, In s succs ->
                    edge forth_injectors (short_name s) (short_name item)))
      /\ (forall k l,
            lookup back_injectors k = Some l ->
            exists item,
              In item project_items /\ short_name item = k
              /\ In (name item) (keys successors))
      /\ (forall a b, mult forth_injectors b a = mult back_injectors a b)
      /\ (forall a b, edge forth_injectors b a <-> edge back_injectors a b)
      /\ no_empty_entry forth_injectors.
Proof.
  intros project_items successors execution_permits self Hn Hs Hwf Hinit.
  destruct (init_inr _ _ _ Hinit) as (back & forth & Hinj & Hb & Hf & _).
  exists back, forth.
  apply _make_pipeline_dependencies in Hb, Hf.
  destruct (make_injectors_inr _ _ Hinj) as (Hback & ->).
  apply make_back_injectors_inr in Hback.
  destruct Hback as (pairs & Hpairs & ->).
  assert (Hdistinct : NoDup (keys pairs))
    by (eapply translated_keys_distinct; eauto).
  rewrite (dict_of_distinct _ Hdistinct) in *.
  repeat split; auto.
  - intros item names Hitem Hnames.
    apply lookup_Some_In in Hnames.
    destruct (@Forall2_In_l _ _ _ _ _ _ Hpairs Hnames)
      as ([k v] & Hpair & Hk & Hv). simpl in Hk, Hv.
    apply try_map_short_names in Hv; [|exact Hn].
    destruct Hv as (succs & Hsn & Hss & Hincl).
    exists succs.
    apply getitem_inr, lookup_short_names in Hk; [|exact Hn].
    destruct Hk as (item' & Hitem' & Hname & <-).
    assert (item' = item) as ->.
    { apply (@NoDup_map_injective _ _ name project_items); auto. }
    assert (Hback : lookup pairs (short_name item) = Some (map short_name succs)).
    { rewrite Hss. now apply In_lookup_wf. }
    repeat split; auto.
    intros s Hs'. apply edge_inverted; [exact Hdistinct|].
    unfold edge, get_or. rewrite Hback. now apply in_map.
  - intros k l Hl. apply lookup_Some_In in Hl.
    destruct (@Forall2_In_r _ _ _ _ _ _ Hpairs Hl)
      as ([key value] & Hentry & Hk & _). simpl in Hk.
    apply getitem_inr, lookup_short_names in Hk; [|exact Hn].
    destruct Hk as (item & Hitem & <- & <-).
    exists item. repeat split; auto.
    change (In (fst (name item, value)) (map fst successors)).
    now apply in_map.
  - intros a b. now apply mult_inverted.
  - apply edge_inverted. exact Hdistinct.
  - apply edge_inverted. exact Hdistinct.
  - apply no_empty_inverted.
Qed.

End ConstructionFacts.

(** ** The run-state machine *)

Section RunFacts.

Variables (Resource World : Type).
Variable dagster : Dagster Resource World.
Local Abbreviation Engine := (SpineEngine Resource World).
Implicit Types (self : Engine) (event : DagsterEvent) (trace : list Obs).

Lemma state_stop self (env : Env Resource World) :
  state (fst (stop self env)) = USER_STOPPED.
Proof. unfold stop. simpl. now destruct (_running_item self). Qed.

(** What handling one event does to the state. *)
Lemma handle_event_state self event self' :
  handle_event self event = inr self' ->
  state self' = transition (state self) (ObsEvent event).
Proof.
  unfold handle_event, transition, is_failure, is_stop, state.
  destruct (event_type event); simpl; try (intros [= <-]; reflexivity).
  - destruct (getitem (_project_item_lookup self) (solid_name event)) as [e|item];
      simpl; [discriminate|]. intros [= <-]. reflexivity.
  - destruct (getitem (_project_item_lookup self) (solid_name event)) as [e|item];
      simpl; [discriminate|]. intros [= <-].
    destruct (_state self) eqn:E; cbn; rewrite ?E; reflexivity.
Qed.

Lemma loop_runs_state (events : list (PipelineIterator dagster)) self
    (env : Env Resource World) trace self' env' :
  loop_runs dagster events self env trace self' env' ->
  state self' = fold_left transition trace (state self).
Proof.
  induction 1 as [ events self env env' _
                 | events self env event events' env1 self1 trace self' env'
                     _ Hh _ IH
                 | events self env self1 env1 trace self' env' Hs _ IH
                 | events self env event events' env1 self1 env2 self2
                     trace self' env' _ Hs Hh _ IH ]; simpl.
  - reflexivity.
  - rewrite IH. now rewrite (handle_event_state _ _ Hh).
  - rewrite IH. f_equal.
    change self1 with (fst (self1, env1)). rewrite <- Hs. apply state_stop.
  - rewrite IH. f_equal. rewrite (handle_event_state _ _ Hh). f_equal.
    change self1 with (fst (self1, env2)). rewrite <- Hs. apply state_stop.
Qed.

Lemma fold_transition_stopped trace :
  fold_left transition trace USER_STOPPED = USER_STOPPED.
Proof.
  induction trace as [|o rest IH]; simpl; auto.
  unfold transition at 2. simpl. destruct (is_stop o), (is_failure o); auto.
Qed.

(** C4: handling a [STEP_FAILURE] event sets the state to [FAILED], unless
    the state is [USER_STOPPED], which stays; the event is handled whenever
    it names a solid of the engine; and from [USER_STOPPED] on, whatever
    the rest of the loop sees, the state is [USER_STOPPED] when it ends. *)
Theorem step_failure_sets_failed_unless_stopped :
  forall self event,
    event_type event = STEP_FAILURE ->
    In (solid_name event) (keys (_project_item_lookup self)) ->
    exists self',
      handle_event self event = inr self'
      /\ (state self = USER_STOPPED -> state self' = USER_STOPPED)
      /\ (state self <> USER_STOPPED -> state self' = FAILED)
      /\ (forall (events : list (PipelineIterator dagster))
                 (env : Env Resource World) trace self2 env2,
            state self = USER_STOPPED ->
            loop_runs dagster events self' env trace self2 env2 ->
            state self2 = USER_STOPPED).
Proof.
  intros self event Htype Hknown.
  destruct (lookup (_project_item_lookup self) (solid_name event)) as [item|] eqn:E.
  - unfold handle_event, getitem. rewrite Htype, E. simpl.
    eexists. split; [reflexivity|].
    split; [|split].
    + unfold state. cbn. intros Hs. rewrite Hs. cbn. exact Hs.
    + unfold state. cbn. intros Hs.
      destruct (_state self); cbn; congruence.
    + intros events env trace self2 env2 Hs Hloop.
      apply loop_runs_state in Hloop. rewrite Hloop.
      unfold state in *. cbn. rewrite Hs. cbn. rewrite Hs.
      apply fold_transition_stopped.
  - apply lookup_None_keys in E. contradiction.
Qed.

Lemma fold_transition_failed trace :
  fold_left transition trace FAILED
  = if stop_seen trace then USER_STOPPED else FAILED.
Proof.
  induction trace as [|o rest IH]; simpl; auto.
  unfold transition at 2. simpl. destruct (is_stop o) eqn:Es; simpl.
  - apply fold_transition_stopped.
  - destruct (is_failure o); exact IH.
Qed.

Lemma fold_transition_running trace :
  fold_left transition trace RUNNING
  = if stop_seen trace then USER_STOPPED
    else if failure_seen trace then FAILED else RUNNING.
Proof.
  induction trace as [|o rest IH]; simpl; auto.
  unfold transition at 2. simpl. destruct (is_stop o) eqn:Es; simpl.
  - apply fold_transition_stopped.
  - destruct (is_failure o); simpl; [|exact IH].
    rewrite fold_transition_failed. now destruct (stop_seen rest).
Qed.

(** C5: when the loop of [run] has drained both pipelines, the state is
    still [RUNNING] exactly when no node failed and [stop] was not called,
    and [run] then ends [COMPLETED]; otherwise the state the loop left,
    [USER_STOPPED] or [FAILED], is the final one. *)
Theorem run_final_state :
  forall self (env : Env Resource World) trace self1 env',
    loop_runs dagster (snd (run_start dagster self)) (fst (run_start dagster self))
              env trace self1 env' ->
    runs dagster self env trace (run_finish self1) env'
    /\ (state self1 = RUNNING
        <-> stop_seen trace = false /\ failure_seen trace = false)
    /\ (state self1 = RUNNING -> state (run_finish self1) = COMPLETED)
    /\ (state self1 <> RUNNING ->
        state (run_finish self1) = state self1
        /\ (state self1 = USER_STOPPED \/ state self1 = FAILED))
    /\ state (run_finish self1)
       = (if stop_seen trace then USER_STOPPED
          else if failure_seen trace then FAILED
          else COMPLETED).
Proof.
  intros self env trace self1 env' Hloop.
  split; [exists self1; auto|].
  apply loop_runs_state in Hloop.
  change (state (fst (run_start dagster self))) with RUNNING in Hloop.
  rewrite fold_transition_running in Hloop.
  unfold run_finish. fold (state self1).
  destruct (stop_seen trace); [|destruct (failure_seen trace)];
    rewrite Hloop; simpl; rewrite ?Hloop;
    repeat split; auto; try discriminate; try tauto;
    intros []; discriminate.
Qed.

(** The function [run] is the run that no other thread interrupts. *)
Lemma run_loop_runs fuel (events : list (PipelineIterator dagster)) self
    (env : Env Resource World) self' env' :
  run_loop dagster fuel events self env = Some (Returned self' env') ->
  exists trace,
    loop_runs dagster events self env trace self' env' /\ stop_seen trace = false.
Proof.
  revert events self env. induction fuel as [|fuel IH]; simpl; intros events self env H.
  - discriminate.
  - destruct (chain_next dagster events (_state self) env) as [[[event events']|] env1] eqn:Ec.
    + destruct (handle_event self event) as [e|self1] eqn:Eh; [discriminate|].
      destruct (IH _ _ _ H) as (trace & Hl & Hs).
      exists (ObsEvent event :: trace). split; [|exact Hs].
      eapply loop_event; eauto.
    + injection H as <- <-. exists []. split; [|reflexivity].
      now apply loop_exhausted.
Qed.

Lemma run_runs fuel self (env : Env Resource World) self' env' :
  run dagster fuel self env = Some (Returned self' env') ->
  exists trace, runs dagster self env trace self' env' /\ stop_seen trace = false.
Proof.
  unfold run, runs. simpl. intros H.
  match type of H with
  | match ?r with _ => _ end = _ => destruct r as [[self1 env1|e self1 env1]|] eqn:E
  end; try discriminate.
  injection H as <- <-.
  destruct (run_loop_runs _ _ _ _ E) as (trace & Hl & Hs).
  exists trace. split; [|exact Hs]. exists self1. auto.
Qed.

(** C7, as amended: [stop] leaves the state [USER_STOPPED] whatever it was.
    From [USER_STOPPED] the state is unchanged, so a second call changes
    nothing in it; from [FAILED] or [COMPLETED] the state changes. [stop]
    also calls [stop_execution] on the item recorded as running, whenever
    one is recorded. [state] returns the stored state and changes nothing. *)
Theorem stop_sets_user_stopped :
  forall self (env : Env Resource World),
    state (fst (stop self env)) = USER_STOPPED
    /\ (state self = USER_STOPPED -> state (fst (stop self env)) = state self)
    /\ (state self = FAILED \/ state self = COMPLETED ->
        state (fst (stop self env)) <> state self)
    /\ state (fst (stop (fst (stop self env)) (snd (stop self env))))
       = state (fst (stop self env))
    /\ (forall item,
          _running_item self = Some item ->
          calls (snd (stop self env))
          = calls env ++ [StopExecutionCall Resource (name item)])
    /\ (_running_item self = None -> snd (stop self env) = env)
    /\ state self = _state self.
Proof.
  intros self env.
  split; [apply state_stop|].
  split; [intros Hs; now rewrite state_stop|].
  split; [intros [Hs|Hs]; rewrite state_stop, Hs; discriminate|].
  split; [now rewrite !state_stop|].
  split; [|split; [|reflexivity]].
  - intros item Hitem. unfold stop. simpl. rewrite Hitem. reflexivity.
  - intros Hnone. unfold stop. simpl. rewrite Hnone. reflexivity.
Qed.

End RunFacts.

(** ** The compute function *)

Section ComputeFacts.

Variables (Resource World : Type).
Local Abbreviation Item := (ProjectItem Resource World).
Implicit Types (item : Item) (env : Env Resource World)
         (inputs : dict (list Resource)) (direction : Direction).

Lemma compute_fn_stopped self_state item direction permit inputs env :
  self_state = USER_STOPPED \/ self_state = FAILED ->
  compute_fn self_state item direction permit inputs env = (Failure Resource, env).
Proof. intros [-> | ->]; reflexivity. Qed.

Lemma compute_fn_not_permitted self_state item direction inputs env :
  self_state <> USER_STOPPED -> self_state <> FAILED ->
  compute_fn self_state item direction false inputs env
  = (Output (fst (output_resources item direction (world env))) "result",
     {| world := snd (output_resources item direction (world env));
        calls := calls env ++ [OutputResourcesCall Resource (name item) direction] |}).
Proof.
  intros H1 H2. unfold compute_fn.
  destruct self_state; try congruence; simpl;
    unfold bind, ret, item_output_resources;
    destruct (output_resources item direction (world env)); reflexivity.
Qed.

Lemma compute_fn_permitted self_state item direction inputs env :
  self_state <> USER_STOPPED -> self_state <> FAILED ->
  let flat := flat_map (fun values => values) (values inputs) in
  let ran := execute item flat direction (world env) in
  let env1 := {| world := snd ran;
                 calls := calls env ++ [ExecuteCall (name item) flat direction] |} in
  compute_fn self_state item direction true inputs env
  = if fst ran
    then (Output (fst (output_resources item direction (snd ran))) "result",
          {| world := snd (output_resources item direction (snd ran));
             calls := calls env1 ++ [OutputResourcesCall Resource (name item) direction] |})
    else (Failure Resource, env1).
Proof.
  intros H1 H2. unfold compute_fn.
  destruct self_state; try congruence; simpl;
    unfold bind, ret, item_execute, item_output_resources;
    destruct (execute item _ direction (world env)) as [[|] w]; simpl;
    try reflexivity;
    destruct (output_resources item direction w); reflexivity.
Qed.

(** The solids of a pipeline are the solids made for the items. *)
Lemma _make_pipeline_solids (dagster : Dagster Resource World)
    (project_items : list Item) injectors direction
    (execution_permits : dict bool) pipeline solid :
  _make_pipeline dagster project_items injectors direction execution_permits
  = inr pipeline ->
  In solid (solid_defs pipeline) ->
  exists item permit,
    In item project_items
    /\ lookup execution_permits (name item) = Some permit
    /\ solid = _make_solid_def item injectors direction permit.
Proof.
  unfold _make_pipeline. intros H Hin.
  match type of H with try_bind ?c _ = _ => destruct c as [e|sd] eqn:E end;
    simpl in H; [discriminate|].
  match type of H with (if ?c then _ else _) = _ => destruct c end;
    [|discriminate].
  injection H as <-. simpl in Hin.
  apply try_map_inr in E.
  destruct (@Forall2_In_r _ _ _ _ _ _ E Hin) as (item & Hitem & Hsolid).
  destruct (getitem execution_permits (name item)) as [e|permit] eqn:Ep;
    simpl in Hsolid; [discriminate|].
  injection Hsolid as <-. exists item, permit. repeat split; auto.
  now apply getitem_inr.
Qed.

(** C1: in both pipelines of an engine, a compute function that runs
    while the state is [USER_STOPPED] or [FAILED] raises [Failure] and
    leaves the world and the log of item calls as they were: neither
    [execute] nor [output_resources] has been called. *)
Theorem compute_fn_fail_fast :
  forall (dagster : Dagster Resource World) (project_items : list Item)
         (successors : dict (list string)) (execution_permits : dict bool)
         self solid self_state inputs env,
    __init__ dagster project_items successors execution_permits = inr self ->
    In solid (solid_defs (_backward_pipeline self))
    \/ In solid (solid_defs (_forward_pipeline self)) ->
    self_state = USER_STOPPED \/ self_state = FAILED ->
    solid_compute_fn solid self_state inputs env = (Failure Resource, env).
Proof.
  intros dagster project_items successors execution_permits self solid
         self_state inputs env Hinit Hsolid Hstate.
  destruct (init_inr _ _ _ _ Hinit) as (back & forth & _ & Hb & Hf & _).
  destruct Hsolid as [Hin|Hin].
  - destruct (_make_pipeline_solids _ _ _ _ _ _ Hb Hin) as (item & permit & _ & _ & ->).
    now apply compute_fn_stopped.
  - destruct (_make_pipeline_solids _ _ _ _ _ _ Hf Hin) as (item & permit & _ & _ & ->).
    now apply compute_fn_stopped.
Qed.

End ComputeFacts.

(** ** The scheduler *)

Lemma lookup_store_fold_In {V} (pairs : list (string * V)) (d : dict V) k v :
  lookup (fold_left (fun d kv => store d (fst kv) (snd kv)) pairs d) k = Some v ->
  In (k, v) pairs \/ lookup d k = Some v.
Proof.
  revert d. induction pairs as [|[k0 v0] rest IH]; simpl; intros d H; auto.
  destruct (IH _ H) as [Hin|Hd]; auto.
  destruct (string_dec k k0) as [->|Hne].
  - rewrite lookup_store_same in Hd. injection Hd as ->. auto.
  - rewrite lookup_store_other in Hd by exact Hne. auto.
Qed.

Lemma lookup_dict_of_In {V} (pairs : list (string * V)) k v :
  lookup (dict_of pairs) k = Some v -> In (k, v) pairs.
Proof.
  intros H. apply lookup_store_fold_In in H. destruct H as [H|H]; auto.
  discriminate.
Qed.

Lemma lookup_map_values {V W} (g : V -> W) (d : dict V) k :
  lookup (map (fun kv => (fst kv, g (snd kv))) d) k = option_map g (lookup d k).
Proof.
  induction d as [|[k' v'] rest IH]; simpl; auto.
  now destruct (String.eqb k k').
Qed.

(** The dependencies of a node are its injectors, one input each. *)
Lemma _make_dependencies_get injectors b :
  wf injectors ->
  get_or (_make_dependencies injectors) b []
  = dict_of (map (fun n => (input_from n,
                            {| dep_solid := n; dep_output := "result" |}))
                 (get_or injectors b [])).
Proof.
  intros Hwf. unfold _make_dependencies.
  rewrite dict_of_distinct.
  - unfold get_or.
    rewrite (lookup_map_values
               (fun ns => dict_of (map (fun n => (input_from n,
                          {| dep_solid := n; dep_output := "result" |})) ns))).
    now destruct (lookup injectors b).
  - unfold keys. rewrite map_map. exact Hwf.
Qed.

Lemma _make_dependencies_wired injectors b a :
  wf injectors ->
  In a (get_or injectors b []) ->
  In (input_from a, {| dep_solid := a; dep_output := "result" |})
     (get_or (_make_dependencies injectors) b []).
Proof.
  intros Hwf Hin. rewrite _make_dependencies_get by exact Hwf.
  set (pairs := map _ (get_or injectors b [])).
  assert (Hkey : In (input_from a) (keys (dict_of pairs))).
  { apply keys_dict_of. unfold keys, pairs. rewrite map_map. simpl.
    now apply (in_map input_from). }
  destruct (lookup (dict_of pairs) (input_from a)) as [dep|] eqn:E.
  - pose proof (lookup_dict_of_In _ _ E) as Hp. unfold pairs in Hp.
    apply in_map_iff in Hp. destruct Hp as (n & Hn & _).
    injection Hn as Hn <-. subst n.
    now apply lookup_Some_In.
  - apply lookup_None_keys in E. contradiction.
Qed.

Lemma _make_dependencies_solids injectors b a :
  wf injectors ->
  (In a (dep_solids (_make_dependencies injectors) b)
   <-> In a (get_or injectors b [])).
Proof.
  intros Hwf. unfold dep_solids. split.
  - rewrite _make_dependencies_get by exact Hwf. unfold values.
    rewrite map_map. intros H. apply in_map_iff in H.
    destruct H as ([i dep] & <- & Hin). simpl.
    apply In_lookup_wf in Hin; [|apply wf_dict_of].
    apply lookup_dict_of_In, in_map_iff in Hin.
    destruct Hin as (n & [= _ <-] & Hn). exact Hn.
  - intros H. apply (_make_dependencies_wired _ _ Hwf) in H.
    unfold values. rewrite map_map. apply in_map_iff.
    eexists. split; [|exact H]. reflexivity.
Qed.

Section SchedulerFacts.

Variables (Resource World : Type).
Local Abbreviation Plan := (ExecutionPlan Resource World).
Local Abbreviation Status := (dict (StepStatus Resource)).
Implicit Types (status : Status) (deps : dict DependencyDefinition)
         (inputs : dict (list Resource)) (plan : Plan).

(** A ready node's inputs are its predecessors' outputs, input by input
    and in the order of the predecessor list. *)
Lemma gather_inputs_ready status deps inputs :
  gather_inputs status deps = Ready inputs ->
  Forall2 (fun d i => fst d = fst i
                      /\ lookup status (dep_solid (snd d)) = Some (Succeeded (snd i)))
          deps inputs.
Proof.
  revert inputs. induction deps as [|[i dep] rest IH]; simpl; intros inputs H.
  - injection H as <-. constructor.
  - destruct (lookup status (dep_solid dep)) as [st|] eqn:E; [|discriminate].
    destruct (gather_inputs status rest) as [| |inputs'] eqn:Eg; try discriminate.
    destruct st as [value| |]; try discriminate.
    injection H as <-. constructor; auto.
Qed.

Lemma gather_inputs_statuses status deps :
  gather_inputs status deps <> NotReady Resource ->
  forall m, In m (map dep_solid (values deps)) -> lookup status m <> None.
Proof.
  induction deps as [|[i dep] rest IH]; simpl; intros H m Hm; [tauto|].
  destruct (lookup status (dep_solid dep)) as [st|] eqn:E; [|congruence].
  destruct Hm as [<-|Hm]; [congruence|].
  apply IH; auto. intros Hn. rewrite Hn in H. congruence.
Qed.

Lemma gather_inputs_bad status deps m st :
  In m (map dep_solid (values deps)) ->
  lookup status m = Some st -> bad st ->
  forall inputs, gather_inputs status deps <> Ready inputs.
Proof.
  intros Hm Hst Hbad inputs H. apply gather_inputs_ready in H.
  unfold values in Hm. rewrite map_map in Hm. apply in_map_iff in Hm.
  destruct Hm as (d & <- & Hd).
  destruct (@Forall2_In_l _ _ _ _ _ _ H Hd) as (i & _ & _ & Hi).
  rewrite Hi in Hst. injection Hst as <-. destruct Hbad; discriminate.
Qed.

Lemma select_ready_spec (alldeps : dict (dict DependencyDefinition)) status
    (solids : list (SolidDefinition Resource World)) solid ready :
  select_ready alldeps status solids = Some (solid, ready) ->
  In solid solids
  /\ lookup status (solid_def_name solid) = None
  /\ gather_inputs status (get_or alldeps (solid_def_name solid) []) = ready
  /\ ready <> NotReady Resource.
Proof.
  induction solids as [|s rest IH]; simpl; [discriminate|].
  destruct (lookup status (solid_def_name s)) eqn:El.
  - intros H. destruct (IH H) as (? & ? & ? & ?). auto.
  - destruct (gather_inputs status (get_or alldeps (solid_def_name s) []))
      as [| |inputs] eqn:Eg.
    + intros H. destruct (IH H) as (? & ? & ? & ?). auto.
    + intros [= <- <-]. repeat split; auto. discriminate.
    + intros [= <- <-]. repeat split; auto. discriminate.
Qed.

Lemma lookup_store_fresh status k v n st :
  lookup status k = None -> lookup status n = Some st ->
  lookup (store status k v) n = Some st.
Proof.
  intros Hk Hn. rewrite lookup_store_other; auto. congruence.
Qed.

(** Recording the outcome of a node that had no status keeps the first two
    parts of [plan_inv]. *)
Lemma plan_inv_store (alldeps : dict (dict DependencyDefinition)) status k v :
  (forall n st m, lookup status n = Some st -> In m (dep_solids alldeps n) ->
                  lookup status m <> None) ->
  (forall n st m st', lookup status n = Some st -> In m (dep_solids alldeps n) ->
                      lookup status m = Some st' -> bad st' ->
                      st = StepSkipped Resource) ->
  lookup status k = None ->
  gather_inputs status (get_or alldeps k []) <> NotReady Resource ->
  (v = StepSkipped Resource
   \/ exists inputs, gather_inputs status (get_or alldeps k []) = Ready inputs) ->
  (forall n st m, lookup (store status k v) n = Some st ->
                  In m (dep_solids alldeps n) ->
                  lookup (store status k v) m <> None)
  /\ (forall n st m st', lookup (store status k v) n = Some st ->
                         In m (dep_solids alldeps n) ->
                         lookup (store status k v) m = Some st' -> bad st' ->
                         st = StepSkipped Resource).
Proof.
  intros I1 I2 Hfresh Hready Hv.
  assert (Hold : forall n st m, lookup (store status k v) n = Some st ->
                                In m (dep_solids alldeps n) ->
                                lookup status m <> None).
  { intros n st m Hn Hm. destruct (string_dec n k) as [->|Hne].
    - eapply gather_inputs_statuses; [exact Hready | exact Hm].
    - rewrite lookup_store_other in Hn by exact Hne. eapply I1; eauto. }
  assert (Hsame : forall n st m, lookup (store status k v) n = Some st ->
                                 In m (dep_solids alldeps n) ->
                                 lookup (store status k v) m = lookup status m).
  { intros n st m Hn Hm. apply lookup_store_other.
    intros ->. now apply (Hold _ _ _ Hn Hm). }
  split.
  - intros n st m Hn Hm. rewrite (Hsame _ _ _ Hn Hm). eapply Hold; eauto.
  - intros n st m st' Hn Hm Hst' Hbad. rewrite (Hsame _ _ _ Hn Hm) in Hst'.
    destruct (string_dec n k) as [->|Hne].
    + rewrite lookup_store_same in Hn. injection Hn as <-.
      destruct Hv as [->|(inputs & Hin)]; [reflexivity|].
      exfalso. eapply gather_inputs_bad; [exact Hm | exact Hst' | exact Hbad | exact Hin].
    + rewrite lookup_store_other in Hn by exact Hne. eapply I2; eauto.
Qed.

(** One resumption keeps the pipeline, keeps every status already there,
    and keeps [plan_inv]. *)
Lemma plan_next_inv plan self_state (env : Env Resource World) event plan' env' :
  plan_inv plan ->
  plan_next plan self_state env = (Some (event, plan'), env') ->
  plan_pipeline plan' = plan_pipeline plan
  /\ (forall n st, lookup (plan_status plan) n = Some st ->
                   lookup (plan_status plan') n = Some st)
  /\ plan_inv plan'.
Proof.
  intros (I1 & I2 & I3) H. unfold plan_next in H.
  destruct (plan_phase plan) as [|solid inputs|solid] eqn:Ep.
  - destruct (select_ready (dependencies (plan_pipeline plan)) (plan_status plan)
                           (solid_defs (plan_pipeline plan)))
      as [[solid ready]|] eqn:Es; [|discriminate].
    apply select_ready_spec in Es. destruct Es as (_ & Hfresh & Hg & Hnot).
    destruct ready as [| |inputs]; [congruence| |];
      unfold ret in H; injection H as <- <- <-; simpl.
    + split; [reflexivity|]. split.
      * intros n st Hn. now apply lookup_store_fresh.
      * unfold plan_inv. simpl.
        destruct (@plan_inv_store (dependencies (plan_pipeline plan))
                    (plan_status plan) (solid_def_name solid)
                    (StepSkipped Resource) I1 I2 Hfresh)
          as (I1' & I2'); auto.
        rewrite Hg. discriminate.
    + split; [reflexivity|]. split; [auto|].
      unfold plan_inv. simpl. auto.
  - destruct I3 as (Hfresh & Hg). unfold bind in H.
    destruct (solid_compute_fn solid self_state inputs env) as [result env1].
    assert (Hstore : forall v,
      plan_inv (plan_with plan (store (plan_status plan) (solid_def_name solid) v)
                          match v with
                          | Succeeded _ => Succeeding solid
                          | _ => Idle Resource World
                          end)).
    { intros v. unfold plan_inv. simpl.
      destruct (@plan_inv_store (dependencies (plan_pipeline plan))
                  (plan_status plan) (solid_def_name solid) v I1 I2 Hfresh)
        as (I1' & I2'); eauto.
      - rewrite Hg. discriminate.
      - repeat split; auto. now destruct v. }
    destruct result as [value output_name|];
      unfold ret in H; injection H as <- <- <-; simpl.
    + split; [reflexivity|]. split.
      * intros n st Hn. now apply lookup_store_fresh.
      * apply (Hstore (Succeeded value)).
    + split; [reflexivity|]. split.
      * intros n st Hn. now apply lookup_store_fresh.
      * apply (Hstore (StepFailed Resource)).
  - unfold ret in H. injection H as <- <- <-. simpl.
    split; [reflexivity|]. split; [auto|].
    unfold plan_inv. simpl. auto.
Qed.

Lemma plan_reaches_inv plan plan' :
  plan_inv plan ->
  plan_reaches plan plan' ->
  plan_pipeline plan' = plan_pipeline plan
  /\ (forall n st, lookup (plan_status plan) n = Some st ->
                   lookup (plan_status plan') n = Some st)
  /\ plan_inv plan'.
Proof.
  intros Hinv.
  induction 1 as [|plan1 self_state env event plan2 env' _ (IHp & IHs & IHi) Hnext].
  - auto.
  - eapply plan_next_inv in Hnext; [|exact IHi].
    destruct Hnext as (Hp & Hs & Hi).
    split; [congruence|]. split; [auto | exact Hi].
Qed.

Lemma plan_reachable_inv (pipeline : PipelineDefinition Resource World) plan :
  plan_reachable pipeline plan ->
  plan_pipeline plan = pipeline /\ plan_inv plan.
Proof.
  intros H. apply plan_reaches_inv in H.
  - destruct H as (Hp & _ & Hi). auto.
  - unfold plan_inv. simpl. repeat split; intros; discriminate.
Qed.

(** Below a failed or skipped node, every node that gets a status is
    skipped. *)
Lemma plan_inv_skip_cascade plan b a :
  plan_inv plan ->
  depends_on (dependencies (plan_pipeline plan)) b a ->
  forall sa sb,
    lookup (plan_status plan) a = Some sa -> bad sa ->
    lookup (plan_status plan) b = Some sb ->
    sb = StepSkipped Resource.
Proof.
  intros (I1 & I2 & _) Hdep.
  induction Hdep as [b a Hin | b c a Hin _ IH]; intros sa sb Ha Hbad Hb.
  - eapply I2; eauto.
  - destruct (lookup (plan_status plan) c) as [sc|] eqn:Ec.
    + assert (sc = StepSkipped Resource) by (eapply IH; eauto).
      subst sc. eapply I2; eauto. now right.
    + exfalso. eapply I1; eauto.
Qed.

(** A node that is about to run its compute function has only succeeded
    nodes above it. *)
Lemma plan_inv_started_above plan solid inputs a :
  plan_inv plan ->
  plan_phase plan = Started solid inputs ->
  depends_on (dependencies (plan_pipeline plan)) (solid_def_name solid) a ->
  forall sa, lookup (plan_status plan) a = Some sa -> ~ bad sa.
Proof.
  intros Hinv Hphase Hdep sa Ha Hbad.
  pose proof Hinv as (I1 & I2 & I3). rewrite Hphase in I3.
  destruct I3 as (_ & Hg).
  inversion Hdep as [b a' Hin | b c a' Hin Hca]; subst.
  - eapply gather_inputs_bad; [exact Hin | exact Ha | exact Hbad | exact Hg].
  - pose proof Hg as Hall. apply gather_inputs_ready in Hall.
    unfold dep_solids, values in Hin. rewrite map_map in Hin.
    apply in_map_iff in Hin. destruct Hin as (d & <- & Hd).
    destruct (@Forall2_In_l _ _ _ _ _ _ Hall Hd) as (i & _ & _ & Hi).
    assert (Succeeded (snd i) = StepSkipped Resource)
      by (eapply plan_inv_skip_cascade; eauto).
    discriminate.
Qed.

Local Abbreviation Item := (ProjectItem Resource World).

(** C2: a node whose permit is false, reached while the state is
    [RUNNING]. Its compute function calls [output_resources] and nothing
    else on the item, and yields the value as the output ["result"]; the
    scheduler records that value as the node's output; and every dependent
    that is started afterwards finds the value among its inputs, under the
    input that [_make_dependencies] wired to this node. *)
Theorem permit_false_passes_resources :
  forall (item : Item) (injectors : dict (list string)) (direction : Direction)
         (inputs : dict (list Resource)) (env : Env Resource World),
    let solid := _make_solid_def item injectors direction false in
    let out := output_resources item direction (world env) in
    let env' :=
      {| world := snd out;
         calls := calls env ++ [OutputResourcesCall Resource (name item) direction] |} in
    solid_compute_fn solid RUNNING inputs env = (Output (fst out) "result", env')
    /\ (forall pipeline plan0,
          wf injectors ->
          dependencies pipeline = _make_dependencies injectors ->
          plan_reachable pipeline plan0 ->
          plan_phase plan0 = Started solid inputs ->
          exists plan1,
            plan_next plan0 RUNNING env
            = (Some (step_event STEP_OUTPUT solid, plan1), env')
            /\ lookup (plan_status plan1) (short_name item)
               = Some (Succeeded (fst out))
            /\ forall plan dependent inputs',
                 plan_reaches plan1 plan ->
                 In (short_name item)
                    (get_or injectors (solid_def_name dependent) []) ->
                 plan_phase plan = Started dependent inputs' ->
                 In (input_from (short_name item), fst out) inputs').
Proof.
  intros item injectors direction inputs env solid out env'.
  assert (Hc : solid_compute_fn solid RUNNING inputs env
               = (Output (fst out) "result", env')).
  { unfold solid. simpl. apply compute_fn_not_permitted; discriminate. }
  split; [exact Hc|].
  intros pipeline plan0 Hwf Hdeps Hreach Hphase0.
  eexists. split; [|split].
  - unfold plan_next. rewrite Hphase0. unfold bind. rewrite Hc. reflexivity.
  - simpl. apply lookup_store_same.
  - intros plan dependent inputs' Hlater Hinj Hphase.
    apply plan_reachable_inv in Hreach. destruct Hreach as (Hp0 & Hinv0).
    assert (Hstep : plan_reaches plan0 plan).
    { clear - Hlater Hphase0 Hc.
      induction Hlater as [|plan1 st e ev plan2 e' _ IH Hn].
      - eapply reaches_next; [apply reaches_here|].
        unfold plan_next. rewrite Hphase0. unfold bind. rewrite Hc. reflexivity.
      - eapply reaches_next; eauto. }
    assert (Hkept : lookup (plan_status plan) (short_name item)
                    = Some (Succeeded (fst out))).
    { assert (Hinv1 : plan_inv (plan_with plan0
                        (store (plan_status plan0) (short_name item)
                               (Succeeded (fst out)))
                        (Succeeding solid))).
      { eapply plan_next_inv; [exact Hinv0|].
        unfold plan_next. rewrite Hphase0. unfold bind. rewrite Hc. reflexivity. }
      destruct (plan_reaches_inv Hinv1 Hlater) as (_ & Hs & _).
      apply Hs. simpl. apply lookup_store_same. }
    destruct (plan_reaches_inv Hinv0 Hstep) as (Hp & _ & _ & _ & I3).
    rewrite Hphase in I3. destruct I3 as (_ & Hg).
    rewrite Hp, Hp0, Hdeps in Hg. apply gather_inputs_ready in Hg.
    pose proof (_make_dependencies_wired _ _ Hwf Hinj) as Hwired.
    destruct (@Forall2_In_l _ _ _ _ _ _ Hg Hwired) as ([i value] & Hin & Hi & Hv).
    simpl in Hi, Hv. rewrite Hkept in Hv. injection Hv as <-. now subst i.
Qed.

(** C3: a node whose permit is true and that passes the fail-fast check.
    Its compute function calls [execute] on the flattened inputs, which
    for a started node are its predecessors' outputs in the order of the
    predecessor list. When [execute] returns false the compute function
    raises [Failure] without asking for the output, the scheduler records
    the node as failed, and from then on every node that depends on it,
    directly or not, is never started and gets no status but skipped. *)
Theorem execute_failure_fails_node :
  forall (item : Item) (injectors : dict (list string)) (direction : Direction)
         (inputs : dict (list Resource)) (env : Env Resource World)
         (self_state : SpineEngineState),
    self_state <> USER_STOPPED ->
    self_state <> FAILED ->
    let solid := _make_solid_def item injectors direction true in
    let flat := flat_map (fun values => values) (values inputs) in
    let ran := execute item flat direction (world env) in
    let env1 :=
      {| world := snd ran;
         calls := calls env ++ [ExecuteCall (name item) flat direction] |} in
    (exists more,
        calls (snd (solid_compute_fn solid self_state inputs env))
        = calls env1 ++ more)
    /\ (forall pipeline plan0,
          plan_reachable pipeline plan0 ->
          plan_phase plan0 = Started solid inputs ->
          Forall2 (fun d i =>
                     lookup (plan_status plan0) (dep_solid (snd d))
                     = Some (Succeeded (snd i)))
                  (get_or (dependencies pipeline) (short_name item) [])
                  inputs)
    /\ (fst ran = false ->
        solid_compute_fn solid self_state inputs env = (Failure Resource, env1)
        /\ forall pipeline plan0,
             plan_reachable pipeline plan0 ->
             plan_phase plan0 = Started solid inputs ->
             exists plan1,
               plan_next plan0 self_state env
               = (Some (step_event STEP_FAILURE solid, plan1), env1)
               /\ lookup (plan_status plan1) (short_name item)
                  = Some (StepFailed Resource)
               /\ forall plan b,
                    plan_reaches plan1 plan ->
                    depends_on (dependencies pipeline) b (short_name item) ->
                    (forall sb, lookup (plan_status plan) b = Some sb ->
                                sb = StepSkipped Resource)
                    /\ (forall dependent inputs',
                          plan_phase plan = Started dependent inputs' ->
                          solid_def_name dependent <> b)).
Proof.
  intros item injectors direction inputs env self_state H1 H2 solid flat ran env1.
  assert (Hc : solid_compute_fn solid self_state inputs env
               = if fst ran
                 then (Output (fst (output_resources item direction (snd ran))) "result",
                       {| world := snd (output_resources item direction (snd ran));
                          calls := calls env1
                                   ++ [OutputResourcesCall Resource (name item) direction] |})
                 else (Failure Resource, env1)).
  { unfold solid. simpl. now apply compute_fn_permitted. }
  split; [|split].
  - rewrite Hc. destruct (fst ran); simpl.
    + eexists. reflexivity.
    + exists []. now rewrite app_nil_r.
  - intros pipeline plan0 Hreach Hphase.
    apply plan_reachable_inv in Hreach. destruct Hreach as (<- & _ & _ & I3).
    rewrite Hphase in I3.
    destruct I3 as (_ & Hg). apply gather_inputs_ready in Hg.
    simpl in Hg. clear - Hg.
    induction Hg as [|d i ds ins [_ Hd] _ IH]; constructor; auto.
  - intros Hfalse. rewrite Hfalse in Hc. split; [exact Hc|].
    intros pipeline plan0 Hreach Hphase0.
    apply plan_reachable_inv in Hreach. destruct Hreach as (<- & Hinv0).
    assert (Hnext : plan_next plan0 self_state env
                    = (Some (step_event STEP_FAILURE solid,
                             plan_with plan0
                               (store (plan_status plan0) (short_name item)
                                      (StepFailed Resource))
                               (Idle Resource World)),
                       env1)).
    { unfold plan_next. rewrite Hphase0. unfold bind. rewrite Hc. reflexivity. }
    eexists. split; [exact Hnext|]. split; [simpl; apply lookup_store_same|].
    intros plan b Hlater Hdep.
    pose proof Hnext as Hstep. eapply plan_next_inv in Hstep; [|exact Hinv0].
    destruct Hstep as (Hp1 & _ & Hinv1).
    destruct (plan_reaches_inv Hinv1 Hlater) as (Hp & Hs & Hinv).
    assert (Hfailed : lookup (plan_status plan) (short_name item)
                      = Some (StepFailed Resource)).
    { apply Hs. simpl. apply lookup_store_same. }
    rewrite <- Hp1, <- Hp in Hdep.
    split.
    + intros sb Hb. eapply plan_inv_skip_cascade; eauto. now left.
    + intros dependent inputs' Hphase <-.
      eapply plan_inv_started_above; eauto. now left.
Qed.

End SchedulerFacts.

(** ** The theorems at work on the sample project *)

Section Witnesses.

Import Sample.

Lemma compute_fn_fail_fast_witness :
  exists self solid,
    __init__ dagster [A; B] chain_AB (permits true) = inr self
    /\ (In solid (solid_defs (_backward_pipeline self))
        \/ In solid (solid_defs (_forward_pipeline self)))
    /\ (FAILED = USER_STOPPED \/ FAILED = FAILED)
    /\ solid_compute_fn solid FAILED [] env0 = (Failure string, env0).
Proof.
  eexists. eexists.
  split; [reflexivity|].
  split; [right; left; reflexivity|].
  split; [right; reflexivity|].
  eapply (@compute_fn_fail_fast string nat dagster [A; B] chain_AB (permits true)).
  - reflexivity.
  - right. left. reflexivity.
  - right. reflexivity.
Defined.

Lemma execute_failure_fails_node_witness :
  RUNNING <> USER_STOPPED
  /\ RUNNING <> FAILED
  /\ solid_compute_fn (_make_solid_def Bad [] forward true) RUNNING
                      [("input_from_item_a", ["res_item_a"])] env0
     = (Failure string,
        {| world := 1;
           calls := [ExecuteCall "Item B" ["res_item_a"] forward] |}).
Proof.
  assert (H1 : RUNNING <> USER_STOPPED) by discriminate.
  assert (H2 : RUNNING <> FAILED) by discriminate.
  split; [exact H1|]. split; [exact H2|].
  exact (proj1 (proj2 (proj2
    (@execute_failure_fails_node string nat Bad [] forward
       [("input_from_item_a", ["res_item_a"])] env0 RUNNING H1 H2)) eq_refl)).
Defined.

Lemma step_failure_sets_failed_unless_stopped_witness :
  exists self,
    __init__ dagster [A; B] chain_AB (permits true) = inr self
    /\ event_type {| event_type := STEP_FAILURE; solid_name := "item_b" |}
       = STEP_FAILURE
    /\ In "item_b" (keys (_project_item_lookup self))
    /\ exists self',
         handle_event self {| event_type := STEP_FAILURE; solid_name := "item_b" |}
         = inr self'
         /\ state self' = FAILED.
Proof.
  eexists.
  split; [reflexivity|].
  split; [reflexivity|].
  split; [right; left; reflexivity|].
  match goal with
  | |- exists s, handle_event ?e ?ev = _ /\ _ =>
      destruct (@step_failure_sets_failed_unless_stopped
                  string nat dagster e ev eq_refl
                  (or_intror (or_introl eq_refl)))
        as (self' & Hhandled & _ & Hfailed & _)
  end.
  exists self'. split; [exact Hhandled|].
  apply Hfailed. discriminate.
Defined.

Lemma run_final_state_witness :
  exists self self1 env',
    __init__ dagster [A] solo (permits true) = inr self
    /\ loop_runs dagster (snd (run_start dagster self)) (fst (run_start dagster self))
                 env0 stopped_trace self1 env'
    /\ runs dagster self env0 stopped_trace (run_finish self1) env'
    /\ state (run_finish self1) = USER_STOPPED.
Proof.
  eexists. eexists. eexists.
  split; [reflexivity|].
  match goal with |- ?R /\ _ => assert (H : R) end.
  { eapply loop_event; [reflexivity | reflexivity |].
    eapply loop_stop_during; [reflexivity | reflexivity | reflexivity |].
    eapply loop_event; [reflexivity | reflexivity |].
    eapply loop_event; [reflexivity | reflexivity |].
    eapply loop_event; [reflexivity | reflexivity |].
    eapply loop_exhausted. reflexivity. }
  split; [exact H|].
  split; [exact (proj1 (run_final_state H))|].
  exact (proj2 (proj2 (proj2 (proj2 (run_final_state H))))).
Defined.

Lemma init_unknown_successor_raises_witness :
  In ("Item A", ["Item Z"]) dangling
  /\ In "Item Z" ["Item Z"]
  /\ ~ In "Item Z" (map name [A; B])
  /\ exists k, __init__ dagster [A; B] dangling (permits true) = inl (KeyError k).
Proof.
  assert (H1 : In ("Item A", ["Item Z"]) dangling) by (left; reflexivity).
  assert (H2 : In "Item Z" ["Item Z"]) by (left; reflexivity).
  assert (H3 : ~ In "Item Z" (map name [A; B])).
  { simpl. intros [H|[H|[]]]; discriminate. }
  split; [exact H1|]. split; [exact H2|]. split; [exact H3|].
  exact (init_unknown_successor_raises dagster [A; B] dangling (permits true)
           "Item A" ["Item Z"] "Item Z" H1 H2 H3).
Defined.

Lemma init_injector_maps_witness :
  NoDup (map name [A; B; C; D])
  /\ NoDup (map short_name [A; B; C; D])
  /\ wf diamond
  /\ exists self back_injectors forth_injectors,
       __init__ dagster [A; B; C; D] diamond (permits true) = inr self
       /\ dependencies (_backward_pipeline self) = _make_dependencies back_injectors
       /\ dependencies (_forward_pipeline self) = _make_dependencies forth_injectors
       /\ (forall a b, mult forth_injectors b a = mult back_injectors a b).
Proof.
  assert (H1 : NoDup (map name [A; B; C; D])).
  { simpl. repeat constructor; simpl; intuition discriminate. }
  assert (H2 : NoDup (map short_name [A; B; C; D])).
  { simpl. repeat constructor; simpl; intuition discriminate. }
  assert (H3 : wf diamond).
  { unfold wf. simpl. repeat constructor; simpl; intuition discriminate. }
  split; [exact H1|]. split; [exact H2|]. split; [exact H3|].
  destruct (__init__ dagster [A; B; C; D] diamond (permits true))
    as [e|self] eqn:Hinit; [discriminate Hinit|].
  destruct (init_injector_maps dagster [A; B; C; D] (permits true) H1 H2 H3 Hinit)
    as (back & forth & Hb & Hf & _ & _ & Hm & _).
  exists self, back, forth.
  split; [reflexivity|]. split; [exact Hb|]. split; [exact Hf|].
  exact Hm.
Defined.

(** C7, as stated, fails: after a run that ended [COMPLETED], and after one
    that ended [FAILED], [stop] changes what [state] returns, and it calls
    [stop_execution] on the item that was recorded last. *)
Lemma stop_after_run_changes_state :
  exists self done env self2 failed env2,
    __init__ dagster [A; B] chain_AB (permits true) = inr self
    /\ run dagster 100 self env0 = Some (Returned done env)
    /\ state done = COMPLETED
    /\ state (fst (stop done env)) = USER_STOPPED
    /\ calls (snd (stop done env)) = calls env ++ [StopExecutionCall string "Item B"]
    /\ __init__ dagster [A; Bad] chain_AB (permits true) = inr self2
    /\ run dagster 100 self2 env0 = Some (Returned failed env2)
    /\ state failed = FAILED
    /\ state (fst (stop failed env2)) = USER_STOPPED.
Proof.
  eexists. eexists. eexists. eexists. eexists. eexists.
  split; [reflexivity|].
  split; [reflexivity|].
  split; [reflexivity|].
  split; [reflexivity|].
  split; [reflexivity|].
  split; [reflexivity|].
  split; [reflexivity|].
  split; reflexivity.
Qed.

(** Whole runs, computed. In the diamond the backward pass visits D, B, C,
    A and the forward pass A, B, C, D, each node with the outputs of its
    predecessors as inputs. *)
Example diamond_run :
  outcome false [A; B; C; D] diamond (permits true)
  = Some (COMPLETED,
          {| world := 8;
             calls :=
               [ExecuteCall "Item D" [] backward;
                OutputResourcesCall string "Item D" backward;
                ExecuteCall "Item B" ["res_item_d"] backward;
                OutputResourcesCall string "Item B" backward;
                ExecuteCall "Item C" ["res_item_d"] backward;
                OutputResourcesCall string "Item C" backward;
                ExecuteCall "Item A" ["res_item_b"; "res_item_c"] backward;
                OutputResourcesCall string "Item A" backward;
                ExecuteCall "Item A" [] forward;
                OutputResourcesCall string "Item A" forward;
                ExecuteCall "Item B" ["res_item_a"] forward;
                OutputResourcesCall string "Item B" forward;
                ExecuteCall "Item C" ["res_item_a"] forward;
                OutputResourcesCall string "Item C" forward;
                ExecuteCall "Item D" ["res_item_b"; "res_item_c"] forward;
                OutputResourcesCall string "Item D" forward] |}).
Proof. reflexivity. Qed.

(** Item A without permit: never executed, its resources still reach B. *)
Example permit_false_run :
  outcome false [A; B] chain_AB (permits false)
  = Some (COMPLETED,
          {| world := 2;
             calls :=
               [ExecuteCall "Item B" [] backward;
                OutputResourcesCall string "Item B" backward;
                OutputResourcesCall string "Item A" backward;
                OutputResourcesCall string "Item A" forward;
                ExecuteCall "Item B" ["res_item_a"] forward;
                OutputResourcesCall string "Item B" forward] |}).
Proof. reflexivity. Qed.

(** Item B fails in the backward pass: A is skipped there, and in the
    forward pass A fails fast and B is skipped. *)
Example failing_run :
  outcome false [A; Bad] chain_AB (permits true)
  = Some (FAILED,
          {| world := 1; calls := [ExecuteCall "Item B" [] backward] |}).
Proof. reflexivity. Qed.

(** The forward generator of that project gets to the point where B is
    started, with A's resources as its input. *)
Example permit_false_delivery :
  exists self plan solid,
    __init__ dagster [A; B] chain_AB (permits false) = inr self
    /\ plan_reachable (_forward_pipeline self) plan
    /\ plan_phase plan = Started solid [("input_from_item_a", ["res_item_a"])]
    /\ solid_def_name solid = "item_b".
Proof.
  eexists. eexists. eexists. split; [reflexivity|].
  split; [|split].
  - unfold plan_reachable.
    eapply (@reaches_next _ _ _ _ RUNNING env0).
    eapply (@reaches_next _ _ _ _ RUNNING env0).
    eapply (@reaches_next _ _ _ _ RUNNING env0).
    eapply (@reaches_next _ _ _ _ RUNNING env0).
    apply reaches_here.
    all: reflexivity.
  - reflexivity.
  - reflexivity.
Qed.

(** The backward generator of the failing project: B fails, then A, which
    depends on it there, is skipped. *)
Example failing_skip :
  exists self plan,
    __init__ dagster [A; Bad] chain_AB (permits true) = inr self
    /\ plan_reachable (_backward_pipeline self) plan
    /\ plan_status plan
       = [("item_b", StepFailed string); ("item_a", StepSkipped string)]
    /\ depends_on (dependencies (_backward_pipeline self)) "item_a" "item_b".
Proof.
  eexists. eexists. split; [reflexivity|].
  split; [|split].
  - unfold plan_reachable.
    eapply (@reaches_next _ _ _ _ RUNNING env0).
    eapply (@reaches_next _ _ _ _ RUNNING env0).
    eapply (@reaches_next _ _ _ _ RUNNING env0).
    apply reaches_here.
    all: reflexivity.
  - reflexivity.
  - apply depends_direct. left. reflexivity.
Qed.

(** [stop] before [run] does not keep the workflow from running. *)
Example stop_then_run :
  outcome true [A; B] chain_AB (permits true)
  = outcome false [A; B] chain_AB (permits true)
  /\ option_map fst (outcome true [A; B] chain_AB (permits true))
     = Some COMPLETED.
Proof. split; reflexivity. Qed.

(** After [stop], [run] still calls every item in both passes. *)
Example stop_then_run_calls :
  outcome true [A; B] chain_AB (permits true)
  = Some (COMPLETED,
          {| world := 4;
             calls :=
               [ExecuteCall "Item B" [] backward;
                OutputResourcesCall string "Item B" backward;
                ExecuteCall "Item A" ["res_item_b"] backward;
                OutputResourcesCall string "Item A" backward;
                ExecuteCall "Item A" [] forward;
                OutputResourcesCall string "Item A" forward;
                ExecuteCall "Item B" ["res_item_a"] forward;
                OutputResourcesCall string "Item B" forward] |}).
Proof. reflexivity. Qed.

End Witnesses.

(** * Further properties of the code *)

(** ** [_inverted]: what the output lists hold, and in which order *)

Section InvertedOrder.

Implicit Types (m output : dict (list string)) (k v key value : string).

Lemma get_or_setdefault_append output value key v :
  get_or (setdefault_append output value key) v []
  = get_or output v [] ++ (if String.eqb v value then [key] else []).
Proof.
  rewrite setdefault_append_store.
  destruct (String.eqb_spec v value) as [->|Hne].
  - apply get_or_store_same.
  - rewrite get_or_store_other by exact Hne. now rewrite app_nil_r.
Qed.

Lemma get_or_inverted_values key value_list output v :
  get_or (_inverted_values key value_list output) v []
  = get_or output v [] ++ repeat key (count_occ string_dec value_list v).
Proof.
  unfold _inverted_values. revert output.
  induction value_list as [|value rest IH]; simpl; intros output.
  - now rewrite app_nil_r.
  - rewrite IH, get_or_setdefault_append, <- app_assoc. f_equal.
    destruct (string_dec value v) as [->|Hne].
    + now rewrite String.eqb_refl.
    + destruct (String.eqb_spec v value); [congruence | reflexivity].
Qed.

Lemma get_or_inverted_items m output v :
  get_or (_inverted_items m output) v []
  = get_or output v []
    ++ flat_map (fun kv => repeat (fst kv) (count_occ string_dec (snd kv) v)) m.
Proof.
  unfold _inverted_items. revert output.
  induction m as [|[key value_list] rest IH]; simpl; intros output.
  - now rewrite app_nil_r.
  - rewrite IH, get_or_inverted_values. now rewrite <- app_assoc.
Qed.

Lemma inverted_lists_in_key_order_aux m v :
  get_or (_inverted m) v []
  = flat_map (fun kv => repeat (fst kv) (count_occ string_dec (snd kv) v)) m.
Proof. unfold _inverted. now rewrite get_or_inverted_items. Qed.

Lemma classic_listed m v :
  (exists k vs, In (k, vs) m /\ In v vs)
  \/ (forall k vs, In (k, vs) m -> ~ In v vs).
Proof.
  induction m as [|[key value_list] rest IH].
  - right. intros k vs [].
  - destruct (in_dec string_dec v value_list) as [Hin|Hout].
    + left. exists key, value_list. split; [now left | exact Hin].
    + destruct IH as [(k & vs & Hk & Hv)|Hno].
      * left. exists k, vs. split; [now right | exact Hv].
      * right. intros k vs [Heq|Hin].
        -- injection Heq as <- <-. exact Hout.
        -- eauto.
Qed.

(** X1: the list that [_inverted] builds for a value holds the keys that
    list the value, in the order of the input's keys, each key as often as
    it lists the value. *)
Theorem inverted_lists_in_key_order :
  forall (m : dict (list string)) (v : string),
    get_or (_inverted m) v []
    = flat_map (fun kv => repeat (fst kv) (count_occ string_dec (snd kv) v)) m.
Proof.
  intros m v. unfold _inverted. now rewrite get_or_inverted_items.
Qed.

Lemma flat_map_repeat_nil (m : dict (list string)) v :
  flat_map (fun kv => repeat (fst kv) (count_occ string_dec (snd kv) v)) m = []
  <-> forall k vs, In (k, vs) m -> ~ In v vs.
Proof.
  induction m as [|[key value_list] rest IH]; simpl.
  - split; [intros _ k vs [] | reflexivity].
  - split.
    + intros H k vs [Heq|Hin].
      * injection Heq as <- <-.
        apply app_eq_nil in H. destruct H as (H & _).
        apply count_occ_not_In with (eq_dec := string_dec).
        destruct (count_occ string_dec value_list v); [reflexivity|discriminate].
      * apply app_eq_nil in H. destruct H as (_ & H).
        rewrite IH in H. eauto.
    + intros H.
      assert (Hc : count_occ string_dec value_list v = 0).
      { apply count_occ_not_In. apply (H key). now left. }
      rewrite Hc. simpl. apply IH. intros k vs Hin. apply (H k). now right.
Qed.

Lemma keys_inverted_iff m v :
  In v (keys (_inverted m)) <-> exists k vs, In (k, vs) m /\ In v vs.
Proof.
  split.
  - intros Hin.
    destruct (lookup (_inverted m) v) as [l|] eqn:E.
    + assert (Hl : get_or (_inverted m) v [] <> []).
      { unfold get_or. rewrite E. eapply no_empty_inverted; eauto. }
      rewrite inverted_lists_in_key_order_aux in Hl.
      destruct (classic_listed m v) as [Hyes|Hno]; [exact Hyes|].
      exfalso. apply Hl. apply flat_map_repeat_nil. exact Hno.
    + apply lookup_None_keys in E. contradiction.
  - intros (k & vs & Hin & Hv).
    destruct (lookup (_inverted m) v) as [l|] eqn:E.
    + destruct (in_dec string_dec v (keys (_inverted m))) as [H|H]; auto.
      apply lookup_None_keys in H. congruence.
    + exfalso.
      assert (Hnil : get_or (_inverted m) v [] = [])
        by (unfold get_or; now rewrite E).
      rewrite inverted_lists_in_key_order_aux in Hnil.
      rewrite flat_map_repeat_nil in Hnil. exact (Hnil k vs Hin Hv).
Qed.

(** X2: the keys of [_inverted]'s output are exactly the values listed in
    the input, none of them with an empty list; so the output is empty
    exactly when every list of the input is. *)
Theorem inverted_keys_are_listed_values :
  forall m : dict (list string),
    (forall v, In v (keys (_inverted m))
               <-> exists k vs, In (k, vs) m /\ In v vs)
    /\ (forall v l, lookup (_inverted m) v = Some l -> l <> [])
    /\ (_inverted m = [] <-> forall k vs, In (k, vs) m -> vs = []).
Proof.
  intros m.
  split; [apply keys_inverted_iff|]. split; [apply no_empty_inverted|].
  split.
  - intros Hnil k vs Hin. destruct vs as [|v rest]; auto.
    exfalso. assert (Hv : In v (keys (_inverted m))).
    { apply keys_inverted_iff. exists k, (v :: rest).
      split; [exact Hin | now left]. }
    rewrite Hnil in Hv. exact Hv.
  - intros Hall. destruct (_inverted m) as [|[v l] rest] eqn:E; auto.
    exfalso. assert (Hv : In v (keys (_inverted m))) by (rewrite E; now left).
    apply keys_inverted_iff in Hv. destruct Hv as (k & vs & Hin & Hv).
    rewrite (Hall k vs Hin) in Hv. exact Hv.
Qed.

End InvertedOrder.

(** ** Construction: when it fails, and what it builds *)

Section ConstructionMore.

Variables (Resource World : Type).
Variable dagster : Dagster Resource World.
Local Abbreviation Item := (ProjectItem Resource World).
Implicit Types (project_items : list Item) (item : Item)
         (successors : dict (list string)) (execution_permits : dict bool).

Lemma getitem_short_names_inl project_items x e :
  getitem (short_names project_items) x = inl e ->
  e = KeyError x /\ ~ In x (map name project_items).
Proof.
  unfold getitem.
  destruct (lookup (short_names project_items) x) eqn:E; [discriminate|].
  intros [= <-]. split; [reflexivity|].
  rewrite <- keys_short_names. now apply lookup_None_keys.
Qed.

Lemma getitem_short_names_inr project_items x :
  In x (map name project_items) ->
  exists s, getitem (short_names project_items) x = inr s.
Proof.
  intros H. unfold getitem. rewrite <- keys_short_names in H.
  destruct (lookup (short_names project_items) x) eqn:E; [eauto|].
  apply lookup_None_keys in E. contradiction.
Qed.

(** The only way lines 79-81 fail: a name of [successors] that is no
    item's name. *)
Lemma make_injectors_inl project_items successors e :
  make_injectors project_items successors = inl e ->
  exists k, e = KeyError k /\ ~ In k (map name project_items)
            /\ occurs_in successors k.
Proof.
  unfold make_injectors, make_back_injectors.
  set (d := short_names project_items).
  match goal with |- try_bind (try_bind ?c _) _ = _ -> _ =>
    destruct c as [e'|pairs] eqn:E end; simpl; [|discriminate].
  intros [= <-]. apply try_map_inl in E.
  destruct E as ([key value] & Hin & Hf). simpl in Hf.
  destruct (getitem d key) as [e0|k0] eqn:E0; simpl in Hf.
  - injection Hf as <-. apply getitem_short_names_inl in E0.
    destruct E0 as (-> & Hout). exists key. repeat split; auto.
    exists key, value. auto.
  - destruct (try_map (getitem d) value) as [e1|v1] eqn:E1; simpl in Hf;
      [|discriminate].
    injection Hf as <-. apply try_map_inl in E1.
    destruct E1 as (y & Hy & Hg). apply getitem_short_names_inl in Hg.
    destruct Hg as (-> & Hout). exists y. repeat split; auto.
    exists key, value. auto.
Qed.

(** What [_make_pipeline] returns when it returns. *)
Lemma _make_pipeline_inr project_items injectors direction execution_permits
    pipeline :
  _make_pipeline dagster project_items injectors direction execution_permits
  = inr pipeline ->
  Forall2 (fun item solid =>
             exists permit,
               lookup execution_permits (name item) = Some permit
               /\ solid = _make_solid_def item injectors direction permit)
          project_items (solid_defs pipeline)
  /\ dependencies pipeline = _make_dependencies injectors
  /\ pipeline_name pipeline = String.append (direction_str direction) "_pipeline"
  /\ definition_ok dagster pipeline = true.
Proof.
  unfold _make_pipeline. intros H.
  match type of H with try_bind ?c _ = _ => destruct c as [e|sd] eqn:E end;
    simpl in H; [discriminate|].
  match type of H with (if ?c then _ else _) = _ => destruct c eqn:Eok end;
    [|discriminate].
  injection H as <-. simpl. repeat split; auto.
  apply try_map_inr in E. clear - E.
  induction E as [|item solid items solids Hx _ IH]; constructor; auto.
  destruct (getitem execution_permits (name item)) as [e|permit] eqn:Ep;
    simpl in Hx; [discriminate|].
  injection Hx as <-. exists permit. split; [|reflexivity].
  now apply getitem_inr.
Qed.

(** The two ways [_make_pipeline] fails. *)
Lemma _make_pipeline_inl project_items injectors direction execution_permits e :
  _make_pipeline dagster project_items injectors direction execution_permits
  = inl e ->
  e = DagsterInvalidDefinitionError
  \/ exists item, In item project_items
                  /\ lookup execution_permits (name item) = None
                  /\ e = KeyError (name item).
Proof.
  unfold _make_pipeline. intros H.
  match type of H with try_bind ?c _ = _ => destruct c as [e'|sd] eqn:E end;
    simpl in H.
  - injection H as <-. right. apply try_map_inl in E.
    destruct E as (item & Hin & Hf). exists item.
    unfold getitem in Hf.
    destruct (lookup execution_permits (name item)) eqn:El; simpl in Hf;
      [discriminate|].
    injection Hf as <-. auto.
  - match type of H with (if ?c then _ else _) = _ => destruct c end;
      [discriminate|].
    injection H as <-. now left.
Qed.

Lemma _make_pipeline_missing_permit project_items injectors direction
    execution_permits item :
  In item project_items ->
  lookup execution_permits (name item) = None ->
  exists item',
    In item' project_items
    /\ lookup execution_permits (name item') = None
    /\ _make_pipeline dagster project_items injectors direction execution_permits
       = inl (KeyError (name item')).
Proof.
  intros Hin Hnone. unfold _make_pipeline.
  match goal with |- exists _, _ /\ _ /\ try_bind ?c _ = _ =>
    assert (Hc : exists e, c = inl e) end.
  { eapply try_map_fails; [exact Hin|].
    unfold getitem. rewrite Hnone. reflexivity. }
  destruct Hc as (e & Hc). rewrite Hc. simpl.
  apply try_map_inl in Hc. destruct Hc as (item' & Hin' & Hf).
  exists item'. unfold getitem in Hf.
  destruct (lookup execution_permits (name item')) eqn:El; simpl in Hf;
    [discriminate|].
  injection Hf as <-. auto.
Qed.

Lemma make_injectors_known project_items successors injectors :
  make_injectors project_items successors = inr injectors ->
  forall x, occurs_in successors x -> In x (map name project_items).
Proof.
  intros H x (key & value & Hin & Hx).
  destruct injectors as [back forth].
  apply make_injectors_inr in H. destruct H as (H & _).
  apply make_back_injectors_inr in H. destruct H as (pairs & Hall & _).
  destruct (@Forall2_In_l _ _ _ _ _ _ Hall Hin) as ([k v] & _ & Hk & Hv).
  simpl in Hk, Hv. rewrite <- keys_short_names.
  destruct Hx as [->|Hx].
  - apply getitem_inr in Hk. destruct (in_dec string_dec key
      (keys (short_names project_items))) as [|Hout]; auto.
    apply lookup_None_keys in Hout. congruence.
  - apply try_map_inr in Hv.
    destruct (@Forall2_In_l _ _ _ _ _ _ Hv Hx) as (s & _ & Hs).
    apply getitem_inr in Hs. destruct (in_dec string_dec x
      (keys (short_names project_items))) as [|Hout]; auto.
    apply lookup_None_keys in Hout. congruence.
Qed.

(** X3: the [KeyError]s of [__init__]. When [__init__] raises [KeyError],
    its key is a name that [successors] holds, as a key or in a list, and
    that is no item's name, or it is the name of an item that has no entry
    in [execution_permits]. A name in [successors] that is no item's name
    always makes [__init__] raise [KeyError] for such a name. An item
    without an entry in [execution_permits] always keeps [__init__] from
    returning an engine: it raises. *)
Theorem init_key_errors :
  forall project_items successors execution_permits,
    (forall k,
        __init__ dagster project_items successors execution_permits
        = inl (KeyError k) ->
        (occurs_in successors k /\ ~ In k (map name project_items))
        \/ (exists item, In item project_items /\ name item = k
                         /\ lookup execution_permits k = None))
    /\ ((exists x, occurs_in successors x /\ ~ In x (map name project_items)) ->
        exists k, __init__ dagster project_items successors execution_permits
                  = inl (KeyError k)
                  /\ occurs_in successors k
                  /\ ~ In k (map name project_items))
    /\ ((exists item, In item project_items
                      /\ lookup execution_permits (name item) = None) ->
        exists e, __init__ dagster project_items successors execution_permits
                  = inl e).
Proof.
  intros project_items successors execution_permits.
  split; [|split].
  - intros k H. unfold __init__ in H.
    destruct (make_injectors project_items successors)
      as [e|[back forth]] eqn:Ei; simpl in H.
    + injection H as ->. apply make_injectors_inl in Ei.
      destruct Ei as (k' & [= <-] & Hout & Hocc). left. auto.
    + destruct (_make_pipeline dagster project_items back backward
                  execution_permits) as [e|bp] eqn:Eb; simpl in H.
      * injection H as ->. apply _make_pipeline_inl in Eb.
        destruct Eb as [Hd|(item & Hin & Hnone & [= ->])]; [discriminate|].
        right. exists item. auto.
      * destruct (_make_pipeline dagster project_items forth forward
                    execution_permits) as [e|fp] eqn:Ef; simpl in H;
          [|discriminate].
        injection H as ->. apply _make_pipeline_inl in Ef.
        destruct Ef as [Hd|(item & Hin & Hnone & [= ->])]; [discriminate|].
        right. exists item. auto.
  - intros (x & Hocc & Hout). unfold __init__.
    destruct (make_injectors project_items successors)
      as [e|[back forth]] eqn:Ei; simpl.
    + apply make_injectors_inl in Ei.
      destruct Ei as (k & -> & Hk & Hocck). eauto.
    + exfalso. apply Hout. eapply make_injectors_known; eauto.
  - intros (item & Hin & Hnone). unfold __init__.
    destruct (make_injectors project_items successors)
      as [e|[back forth]] eqn:Ei; simpl; [eauto|].
    destruct (_make_pipeline_missing_permit project_items back backward
                execution_permits item Hin Hnone)
      as (item' & _ & _ & ->).
    simpl. eauto.
Qed.

Lemma solids_of_items project_items injectors direction execution_permits
    (solids : list (SolidDefinition Resource World)) :
  Forall2 (fun item solid =>
             exists permit,
               lookup execution_permits (name item) = Some permit
               /\ solid = _make_solid_def item injectors direction permit)
          project_items solids ->
  map solid_def_name solids = map short_name project_items
  /\ Forall2 (fun item solid =>
                output_defs solid = ["result"]
                /\ exists permit,
                     lookup execution_permits (name item) = Some permit
                     /\ forall self_state inputs,
                          solid_compute_fn solid self_state inputs
                          = compute_fn self_state item direction permit inputs)
             project_items solids.
Proof.
  induction 1 as [|item solid items solids (permit & Hp & ->) _ (IHn & IHf)];
    simpl.
  - split; constructor.
  - split; [now rewrite IHn|]. constructor; [|exact IHf].
    split; [reflexivity|]. exists permit. split; [exact Hp | reflexivity].
Qed.

Lemma lookup_item_lookup project_items item :
  NoDup (map short_name project_items) ->
  In item project_items ->
  lookup (dict_of (map (fun item => (short_name item, item)) project_items))
         (short_name item) = Some item.
Proof.
  intros Hnd Hin. rewrite dict_of_distinct.
  - apply In_lookup_wf.
    + unfold wf, keys. now rewrite map_map.
    + apply in_map_iff. eauto.
  - unfold keys. now rewrite map_map.
Qed.

(** X5: the engine that [__init__] returns is asleep with no running item;
    each pipeline has one solid per item, in the order of the items and
    named by the short names, whose compute function is [compute_fn] for
    that item, that direction and that item's permit; dagster accepted
    both pipelines; and the lookup table knows exactly the short names. *)
Theorem init_builds_one_solid_per_item :
  forall project_items successors execution_permits self,
    __init__ dagster project_items successors execution_permits = inr self ->
    state self = SLEEPING
    /\ _running_item self = None
    /\ (forall pipeline direction,
          (pipeline, direction) = (_backward_pipeline self, backward)
          \/ (pipeline, direction) = (_forward_pipeline self, forward) ->
          map solid_def_name (solid_defs pipeline) = map short_name project_items
          /\ pipeline_name pipeline
             = String.append (direction_str direction) "_pipeline"
          /\ definition_ok dagster pipeline = true
          /\ Forall2 (fun item solid =>
                        output_defs solid = ["result"]
                        /\ exists permit,
                             lookup execution_permits (name item) = Some permit
                             /\ forall self_state inputs,
                                  solid_compute_fn solid self_state inputs
                                  = compute_fn self_state item direction
                                               permit inputs)
                     project_items (solid_defs pipeline))
    /\ (forall n, In n (keys (_project_item_lookup self))
                  <-> In n (map short_name project_items))
    /\ (NoDup (map short_name project_items) ->
        forall item, In item project_items ->
                     lookup (_project_item_lookup self) (short_name item)
                     = Some item).
Proof.
  intros project_items successors execution_permits self Hinit.
  destruct (init_inr _ _ _ _ Hinit)
    as (back & forth & _ & Hb & Hf & Hlookup & Hstate & Hrun).
  split; [exact Hstate|]. split; [exact Hrun|]. split; [|split].
  - intros pipeline direction [Heq|Heq]; injection Heq as -> ->.
    + apply _make_pipeline_inr in Hb. destruct Hb as (Hall & _ & Hn & Hok).
      apply solids_of_items in Hall. destruct Hall as (Hnames & Hfuns).
      auto.
    + apply _make_pipeline_inr in Hf. destruct Hf as (Hall & _ & Hn & Hok).
      apply solids_of_items in Hall. destruct Hall as (Hnames & Hfuns).
      auto.
  - intros n. rewrite Hlookup, keys_dict_of. unfold keys.
    now rewrite map_map.
  - intros Hnd item Hin. rewrite Hlookup. now apply lookup_item_lookup.
Qed.

(** An injector map all of whose names are in [names]. *)
Lemma short_names_values project_items x sn :
  lookup (short_names project_items) x = Some sn ->
  In sn (map short_name project_items).
Proof.
  intros H. apply lookup_dict_of_In, in_map_iff in H.
  destruct H as (item & [= _ <-] & Hin). now apply in_map.
Qed.

Lemma back_injectors_closed project_items successors back k l :
  make_back_injectors (short_names project_items) successors = inr back ->
  lookup back k = Some l ->
  In k (map short_name project_items)
  /\ forall x, In x l -> In x (map short_name project_items).
Proof.
  intros H Hl. apply make_back_injectors_inr in H.
  destruct H as (pairs & Hall & ->).
  apply lookup_dict_of_In in Hl.
  destruct (@Forall2_In_r _ _ _ _ _ _ Hall Hl) as ([key value] & _ & Hk & Hv).
  simpl in Hk, Hv. split.
  - apply getitem_inr in Hk. eapply short_names_values; eauto.
  - intros x Hx. apply try_map_inr in Hv.
    destruct (@Forall2_In_r _ _ _ _ _ _ Hv Hx) as (y & _ & Hy).
    apply getitem_inr in Hy. eapply short_names_values; eauto.
Qed.

Lemma forth_injectors_closed project_items successors back v l :
  make_back_injectors (short_names project_items) successors = inr back ->
  lookup (_inverted back) v = Some l ->
  In v (map short_name project_items)
  /\ forall x, In x l -> In x (map short_name project_items).
Proof.
  intros H Hl.
  assert (Hwf : wf back).
  { apply make_back_injectors_inr in H. destruct H as (pairs & _ & ->).
    apply wf_dict_of. }
  split.
  - assert (Hv : In v (keys (_inverted back))).
    { destruct (in_dec string_dec v (keys (_inverted back))) as [|Hout]; auto.
      apply lookup_None_keys in Hout. congruence. }
    apply keys_inverted_iff in Hv. destruct Hv as (k & vs & Hin & Hv).
    apply In_lookup_wf in Hin; [|exact Hwf].
    eapply back_injectors_closed in Hin; [|exact H].
    destruct Hin as (_ & Hvs). auto.
  - intros x Hx.
    assert (He : edge (_inverted back) v x).
    { unfold edge, get_or. now rewrite Hl. }
    rewrite edge_inverted in He by exact Hwf.
    unfold edge, get_or in He.
    destruct (lookup back x) as [l'|] eqn:E; [|destruct He].
    eapply back_injectors_closed in E; [|exact H].
    destruct E as (Hk & _). exact Hk.
Qed.

Lemma _make_dependencies_lookup injectors n deps :
  wf injectors ->
  lookup (_make_dependencies injectors) n = Some deps ->
  exists ns,
    lookup injectors n = Some ns
    /\ deps = dict_of (map (fun m => (input_from m,
                                      {| dep_solid := m; dep_output := "result" |}))
                           ns).
Proof.
  intros Hwf. unfold _make_dependencies. rewrite dict_of_distinct.
  - rewrite (lookup_map_values
               (fun ns => dict_of (map (fun m => (input_from m,
                          {| dep_solid := m; dep_output := "result" |})) ns))).
    destruct (lookup injectors n) as [ns|]; simpl; [|discriminate].
    intros [= <-]. eauto.
  - unfold keys. rewrite map_map. exact Hwf.
Qed.

(** A pipeline made from a well-formed injector map whose names are all
    short names of items has no dangling input and no dangling dependency. *)
Lemma _make_pipeline_wired project_items injectors direction execution_permits
    pipeline :
  wf injectors ->
  (forall k l, lookup injectors k = Some l ->
               In k (map short_name project_items)
               /\ forall x, In x l -> In x (map short_name project_items)) ->
  _make_pipeline dagster project_items injectors direction execution_permits
  = inr pipeline ->
  (forall solid i,
      In solid (solid_defs pipeline) ->
      (In i (input_defs solid)
       <-> In i (keys (get_or (dependencies pipeline) (solid_def_name solid) []))))
  /\ (forall n deps i dep,
        lookup (dependencies pipeline) n = Some deps ->
        In (i, dep) deps ->
        In n (map solid_def_name (solid_defs pipeline))
        /\ In (dep_solid dep) (map solid_def_name (solid_defs pipeline))
        /\ dep_output dep = "result"
        /\ i = input_from (dep_solid dep)).
Proof.
  intros Hwf Hclosed H.
  pose proof (fun solid => @_make_pipeline_solids _ _ _ _ _ _ _ _ solid H)
    as Hsolids.
  apply _make_pipeline_inr in H. destruct H as (Hall & Hdeps & _ & _).
  apply solids_of_items in Hall. destruct Hall as (Hnames & _).
  rewrite Hdeps, Hnames. split.
  - intros solid i Hin.
    destruct (Hsolids solid Hin) as (item & permit & _ & _ & ->). simpl.
    rewrite _make_dependencies_get by exact Hwf.
    rewrite keys_dict_of. unfold keys. now rewrite map_map.
  - intros n deps i dep Hl Hin.
    apply _make_dependencies_lookup in Hl; [|exact Hwf].
    destruct Hl as (ns & Hns & ->).
    apply In_lookup_wf in Hin; [|apply wf_dict_of].
    apply lookup_dict_of_In, in_map_iff in Hin.
    destruct Hin as (m & [= <- <-] & Hm). simpl.
    destruct (Hclosed n ns Hns) as (Hn & Hms). auto.
Qed.

(** X6: in both pipelines of the engine that [__init__] returns, the
    inputs a solid declares are the inputs its dependency dictionary
    feeds, and every dependency is from a solid of the same pipeline,
    from its output ["result"], into the input named after that solid. *)
Theorem pipelines_have_no_dangling_dependency :
  forall project_items successors execution_permits self pipeline,
    __init__ dagster project_items successors execution_permits = inr self ->
    pipeline = _backward_pipeline self \/ pipeline = _forward_pipeline self ->
    (forall solid i,
        In solid (solid_defs pipeline) ->
        (In i (input_defs solid)
         <-> In i (keys (get_or (dependencies pipeline)
                                (solid_def_name solid) []))))
    /\ (forall n deps i dep,
          lookup (dependencies pipeline) n = Some deps ->
          In (i, dep) deps ->
          In n (map solid_def_name (solid_defs pipeline))
          /\ In (dep_solid dep) (map solid_def_name (solid_defs pipeline))
          /\ dep_output dep = "result"
          /\ i = input_from (dep_solid dep)).
Proof.
  intros project_items successors execution_permits self pipeline Hinit Hp.
  destruct (init_inr _ _ _ _ Hinit) as (back & forth & Hi & Hb & Hf & _).
  apply make_injectors_inr in Hi. destruct Hi as (Hback & ->).
  assert (Hwf : wf back).
  { pose proof Hback as H. apply make_back_injectors_inr in H.
    destruct H as (pairs & _ & ->). apply wf_dict_of. }
  destruct Hp as [-> | ->].
  - eapply _make_pipeline_wired; [exact Hwf | | exact Hb].
    intros k l. now apply back_injectors_closed with (successors := successors).
  - eapply _make_pipeline_wired; [apply wf_inverted | | exact Hf].
    intros k l. now apply forth_injectors_closed with (successors := successors).
Qed.

(** With distinct names, the backward injectors follow [successors]. *)
Lemma back_injectors_follow_successors project_items successors back a b :
  NoDup (map name project_items) ->
  NoDup (map short_name project_items) ->
  wf successors ->
  make_back_injectors (short_names project_items) successors = inr back ->
  In a project_items -> In b project_items ->
  (In (short_name b) (get_or back (short_name a) [])
   <-> In (name b) (get_or successors (name a) [])).
Proof.
  intros Hn Hs Hwf H Ha Hb.
  apply make_back_injectors_inr in H. destruct H as (pairs & Hall & ->).
  assert (Hdistinct : NoDup (keys pairs))
    by (eapply translated_keys_distinct; eauto).
  rewrite (dict_of_distinct _ Hdistinct).
  assert (Hda : lookup (short_names project_items) (name a) = Some (short_name a)).
  { apply lookup_short_names; eauto. }
  assert (Hdb : lookup (short_names project_items) (name b) = Some (short_name b)).
  { apply lookup_short_names; eauto. }
  split.
  - intros Hin. unfold get_or in Hin.
    destruct (lookup pairs (short_name a)) as [l|] eqn:El; [|destruct Hin].
    apply lookup_Some_In in El.
    destruct (@Forall2_In_r _ _ _ _ _ _ Hall El) as ([key value] & Hentry & Hk & Hv).
    simpl in Hk, Hv. apply getitem_inr in Hk.
    assert (key = name a) as -> by (eapply short_names_injective; eauto).
    unfold get_or. rewrite (@In_lookup_wf _ _ _ _ Hwf Hentry).
    apply try_map_inr in Hv.
    destruct (@Forall2_In_r _ _ _ _ _ _ Hv Hin) as (x & Hx & Hg).
    apply getitem_inr in Hg.
    assert (x = name b) as -> by (eapply short_names_injective; eauto).
    exact Hx.
  - intros Hin. unfold get_or in Hin.
    destruct (lookup successors (name a)) as [value|] eqn:El; [|destruct Hin].
    apply lookup_Some_In in El.
    destruct (@Forall2_In_l _ _ _ _ _ _ Hall El) as ([k l] & Hpair & Hk & Hv).
    simpl in Hk, Hv. apply getitem_inr in Hk.
    rewrite Hda in Hk. injection Hk as <-.
    unfold get_or. rewrite (@In_lookup_wf _ _ _ _ Hdistinct Hpair).
    apply try_map_inr in Hv.
    destruct (@Forall2_In_l _ _ _ _ _ _ Hv Hin) as (sn & Hsn & Hg).
    apply getitem_inr in Hg. rewrite Hdb in Hg. injection Hg as <-.
    exact Hsn.
Qed.

(** X7: with item names and short names distinct, the forward pipeline
    makes each item depend on the items that list it as a successor, and
    the backward pipeline makes each item depend on its successors. *)
Theorem dependencies_follow_successors :
  forall project_items successors execution_permits self a b,
    NoDup (map name project_items) ->
    NoDup (map short_name project_items) ->
    wf successors ->
    __init__ dagster project_items successors execution_permits = inr self ->
    In a project_items -> In b project_items ->
    (In (short_name a)
        (dep_solids (dependencies (_forward_pipeline self)) (short_name b))
     <-> In (name b) (get_or successors (name a) []))
    /\ (In (short_name b)
           (dep_solids (dependencies (_backward_pipeline self)) (short_name a))
        <-> In (name b) (get_or successors (name a) [])).
Proof.
  intros project_items successors execution_permits self a b
         Hn Hs Hwf Hinit Ha Hb.
  destruct (init_inr _ _ _ _ Hinit) as (back & forth & Hi & Hbp & Hfp & _).
  apply make_injectors_inr in Hi. destruct Hi as (Hback & ->).
  apply _make_pipeline_dependencies in Hbp, Hfp.
  assert (Hwfb : wf back).
  { pose proof Hback as H. apply make_back_injectors_inr in H.
    destruct H as (pairs & _ & ->). apply wf_dict_of. }
  assert (Hedge : In (short_name b) (get_or back (short_name a) [])
                  <-> In (name b) (get_or successors (name a) []))
    by (eapply back_injectors_follow_successors; eauto).
  rewrite Hbp, Hfp. split.
  - rewrite _make_dependencies_solids by apply wf_inverted.
    rewrite <- Hedge.
    change (edge (_inverted back) (short_name b) (short_name a)
            <-> edge back (short_name a) (short_name b)).
    now apply edge_inverted.
  - rewrite _make_dependencies_solids by exact Hwfb. exact Hedge.
Qed.

End ConstructionMore.

(** ** The loop of [run]: what it keeps, what it records, how it ends *)

Section RunMore.

Variables (Resource World : Type).
Variable dagster : Dagster Resource World.
Local Abbreviation Engine := (SpineEngine Resource World).
Implicit Types (self : Engine) (event : DagsterEvent) (trace : list Obs)
         (env : Env Resource World).

Lemma handle_event_inr self event self1 :
  handle_event self event = inr self1 ->
  same_graph self self1
  /\ _running_item self1
     = match names_item (ObsEvent event) with
       | Some n => lookup (_project_item_lookup self) n
       | None => _running_item self
       end
  /\ (_running_item self <> None -> _running_item self1 <> None).
Proof.
  unfold handle_event, names_item, same_graph, getitem.
  destruct (event_type event);
    try (intros [= <-]; repeat split; auto);
    destruct (lookup (_project_item_lookup self) (solid_name event)) as [item|];
    simpl; try discriminate; intros [= <-];
    try destruct (negb (state_eqb (_state self) USER_STOPPED));
    simpl; repeat split; auto; discriminate.
Qed.

Lemma handle_event_inl self event e :
  handle_event self event = inl e ->
  e = KeyError (solid_name event)
  /\ lookup (_project_item_lookup self) (solid_name event) = None.
Proof.
  unfold handle_event, getitem.
  destruct (event_type event); try discriminate;
    destruct (lookup (_project_item_lookup self) (solid_name event));
    simpl; try discriminate; intros [= <-]; auto.
Qed.

Lemma stop_fields self env self1 env1 :
  stop self env = (self1, env1) ->
  same_graph self self1 /\ _running_item self1 = _running_item self.
Proof.
  unfold stop, same_graph. simpl.
  destruct (_running_item self) eqn:E; intros [= <- _]; simpl;
    repeat split; auto.
Qed.

(** X8: whatever happens during the loop of [run], other threads calling
    [stop] included, the pipelines and the lookup table stay as they were;
    the item recorded as running at the end is the one that the lookup
    table holds for the last started or failed solid, and once an item is
    recorded the loop never clears the record. *)
Theorem loop_keeps_graph_and_tracks_running_item :
  forall (events : list (PipelineIterator dagster)) self env trace self' env',
    loop_runs dagster events self env trace self' env' ->
    _backward_pipeline self' = _backward_pipeline self
    /\ _forward_pipeline self' = _forward_pipeline self
    /\ _project_item_lookup self' = _project_item_lookup self
    /\ _running_item self'
       = match last_step trace with
         | Some n => lookup (_project_item_lookup self) n
         | None => _running_item self
         end
    /\ (_running_item self <> None -> _running_item self' <> None).
Proof.
  intros events self env trace self' env' H.
  cut (same_graph self self'
       /\ _running_item self'
          = match last_step trace with
            | Some n => lookup (_project_item_lookup self) n
            | None => _running_item self
            end
       /\ (_running_item self <> None -> _running_item self' <> None)).
  { unfold same_graph. tauto. }
  induction H as [ events self env env' _
                 | events self env event events' env1 self1 trace self' env'
                     _ Hh _ IH
                 | events self env self1 env1 trace self' env' Hs _ IH
                 | events self env event events' env1 self1 env2 self2
                     trace self' env' _ Hs Hh _ IH ].
  - unfold same_graph. simpl. auto.
  - apply handle_event_inr in Hh.
    destruct Hh as ((Hb & Hf & Hl) & Hr & Hk), IH as ((Hb' & Hf' & Hl') & Hr' & Hk').
    split; [unfold same_graph; repeat split; congruence|]. split; [|auto].
    simpl last_step. rewrite Hr'.
    destruct (last_step trace); [now rewrite Hl | exact Hr].
  - apply stop_fields in Hs.
    destruct Hs as ((Hb & Hf & Hl) & Hr), IH as ((Hb' & Hf' & Hl') & Hr' & Hk').
    split; [unfold same_graph; repeat split; congruence|]. split.
    + simpl last_step. rewrite Hr'.
      destruct (last_step trace); [now rewrite Hl | exact Hr].
    + intros Hsome. apply Hk'. now rewrite Hr.
  - apply stop_fields in Hs. apply handle_event_inr in Hh.
    destruct Hs as ((Hb0 & Hf0 & Hl0) & Hr0).
    destruct Hh as ((Hb & Hf & Hl) & Hr & Hk), IH as ((Hb' & Hf' & Hl') & Hr' & Hk').
    split; [unfold same_graph; repeat split; congruence|]. split.
    + simpl last_step. rewrite Hr'.
      destruct (last_step trace); [now rewrite Hl, Hl0|].
      rewrite Hr, Hl0, Hr0. simpl names_item.
      now destruct (event_type event).
    + intros Hsome. apply Hk', Hk. now rewrite Hr0.
Qed.

Lemma run_loop_outcome fuel (events : list (PipelineIterator dagster)) self env :
  state self = RUNNING \/ state self = FAILED ->
  match run_loop dagster fuel events self env with
  | Some (Returned self' env') =>
      (state self' = RUNNING \/ state self' = FAILED) /\ same_graph self self'
  | Some (Raised e self' env') =>
      (exists k, e = KeyError k /\ lookup (_project_item_lookup self) k = None)
      /\ (state self' = RUNNING \/ state self' = FAILED)
      /\ same_graph self self'
  | None => True
  end.
Proof.
  revert events self env.
  induction fuel as [|fuel IH]; simpl; intros events self env Hstate; [exact I|].
  destruct (chain_next dagster events (_state self) env)
    as [[[event events']|] env1].
  - destruct (handle_event self event) as [e|self1] eqn:Eh.
    + apply handle_event_inl in Eh. destruct Eh as (-> & Hnone).
      split; [eauto|]. split; [exact Hstate|]. unfold same_graph. auto.
    + pose proof (handle_event_state _ _ Eh) as Hst.
      apply handle_event_inr in Eh. destruct Eh as ((Hb & Hf & Hl) & _).
      assert (Hstate1 : state self1 = RUNNING \/ state self1 = FAILED).
      { rewrite Hst. unfold transition. simpl.
        destruct (event_type event); simpl; auto.
        destruct Hstate as [-> | ->]; simpl; auto. }
      specialize (IH events' self1 env1 Hstate1).
      destruct (run_loop dagster fuel events' self1 env1)
        as [[self' env'|e self' env']|]; [| |exact I].
      * destruct IH as (Hs' & Hb' & Hf' & Hl').
        split; [exact Hs'|]. unfold same_graph. repeat split; congruence.
      * destruct IH as ((k & -> & Hnone) & Hs' & Hb' & Hf' & Hl').
        split; [exists k; split; [reflexivity | congruence]|].
        split; [exact Hs'|]. unfold same_graph. repeat split; congruence.
  - split; [exact Hstate|]. unfold same_graph. auto.
Qed.

(** X9: a call of [run] during which [stop] is not called at all, neither
    by another thread nor by the code of an item, returns with the state
    [COMPLETED] or [FAILED]; the only exception that its own code raises is
    the [KeyError] for an event about a solid that the lookup table does
    not know, and it then leaves the state [RUNNING] or [FAILED]. Either
    way the pipelines and the lookup table are kept. [run] is the run
    without any call of [stop]: the runs with calls of [stop] are those of
    [loop_runs]. *)
Theorem run_outcomes :
  forall fuel self env,
    match run dagster fuel self env with
    | Some (Returned self' env') =>
        (state self' = COMPLETED \/ state self' = FAILED)
        /\ _project_item_lookup self' = _project_item_lookup self
        /\ _backward_pipeline self' = _backward_pipeline self
        /\ _forward_pipeline self' = _forward_pipeline self
    | Some (Raised e self' env') =>
        (exists k, e = KeyError k /\ lookup (_project_item_lookup self) k = None)
        /\ (state self' = RUNNING \/ state self' = FAILED)
        /\ _project_item_lookup self' = _project_item_lookup self
        /\ _backward_pipeline self' = _backward_pipeline self
        /\ _forward_pipeline self' = _forward_pipeline self
    | None => True
    end.
Proof.
  intros fuel self env. unfold run. simpl.
  pose proof (run_loop_outcome fuel
                [execute_pipeline_iterator dagster (_backward_pipeline self);
                 execute_pipeline_iterator dagster (_forward_pipeline self)]
                (set_state self RUNNING) env (or_introl eq_refl)) as H.
  destruct (run_loop dagster fuel _ (set_state self RUNNING) env)
    as [[self' env'|e self' env']|]; [| |exact I].
  - destruct H as (Hs & Hb & Hf & Hl). simpl in Hb, Hf, Hl.
    unfold run_finish. fold (state self').
    destruct Hs as [Hs|Hs]; rewrite Hs; simpl; repeat split; auto.
  - destruct H as (Hk & Hs & Hb & Hf & Hl). simpl in Hb, Hf, Hl, Hk.
    repeat split; auto.
Qed.

(** X10: cancellation targets the item that was started. On the engine
    that [__init__] returns, [stop] calls no item; once the loop has
    handled the start (or the failure) of an item's solid, with short
    names distinct, [stop] calls [stop_execution] on that item and on no
    other. *)
Theorem stop_targets_started_item :
  forall project_items successors execution_permits self cur item event env,
    __init__ dagster project_items successors execution_permits = inr self ->
    NoDup (map short_name project_items) ->
    In item project_items ->
    _project_item_lookup cur = _project_item_lookup self ->
    event_type event = STEP_START \/ event_type event = STEP_FAILURE ->
    solid_name event = short_name item ->
    snd (stop self env) = env
    /\ exists cur',
         handle_event cur event = inr cur'
         /\ snd (stop cur' env)
            = {| world := stop_execution item (world env);
                 calls := calls env ++ [StopExecutionCall Resource (name item)] |}.
Proof.
  intros project_items successors execution_permits self cur item event env
         Hinit Hnd Hin Hcur Htype Hname.
  destruct (init_inr _ _ _ _ Hinit) as (_ & _ & _ & _ & _ & Hlookup & _ & Hrun).
  split.
  - unfold stop. simpl. rewrite Hrun. reflexivity.
  - assert (Hl : lookup (_project_item_lookup cur) (solid_name event) = Some item).
    { rewrite Hcur, Hlookup, Hname. now apply lookup_item_lookup. }
    unfold handle_event, getitem.
    destruct Htype as [-> | ->]; rewrite Hl; simpl; eexists;
      (split; [reflexivity|]).
    + reflexivity.
    + unfold stop. simpl.
      destruct (negb (state_eqb (_state cur) USER_STOPPED)); reflexivity.
Qed.

End RunMore.

(** ** The compute function: every way it can end *)

Section ComputeMore.

Variables (Resource World : Type).
Local Abbreviation Item := (ProjectItem Resource World).

(** X11: [compute_fn] raises [Failure] exactly when the state is
    [USER_STOPPED] or [FAILED], or the permit is true and [execute] returns
    false. An output is always named ["result"]. On the item it makes at
    most one [execute] call, only with the permit and past the fail-fast
    check, then at most one [output_resources] call, exactly when it
    yields an output; it makes no other call, on this item or another. *)
Theorem compute_fn_outcomes :
  forall (self_state : SpineEngineState) (item : Item) (direction : Direction)
         (permit : bool) (inputs : dict (list Resource))
         (env : Env Resource World),
    let flat := flat_map (fun values => values) (values inputs) in
    let stopped := self_state = USER_STOPPED \/ self_state = FAILED in
    let result := compute_fn self_state item direction permit inputs env in
    let executed := ExecuteCall (name item) flat direction in
    let asked := OutputResourcesCall Resource (name item) direction in
    (fst result = Failure Resource
     <-> stopped
         \/ (permit = true
             /\ fst (execute item flat direction (world env)) = false))
    /\ (forall value output_name,
          fst result = Output value output_name -> output_name = "result")
    /\ exists more,
         calls (snd result) = calls env ++ more
         /\ (more = [] \/ more = [executed] \/ more = [asked]
             \/ more = [executed; asked])
         /\ (In executed more <-> ~ stopped /\ permit = true)
         /\ (In asked more <-> fst result <> Failure Resource).
Proof.
  intros self_state item direction permit inputs env
         flat stopped result executed asked.
  assert (Hcases : stopped \/ (self_state <> USER_STOPPED /\ self_state <> FAILED)).
  { unfold stopped. destruct self_state; auto; right; split; discriminate. }
  destruct Hcases as [Hstop|[H1 H2]].
  - assert (Hr : result = (Failure Resource, env))
      by (unfold result; now apply compute_fn_stopped).
    rewrite Hr. simpl. split; [tauto|]. split; [discriminate|].
    exists []. rewrite app_nil_r. simpl. repeat split; tauto.
  - assert (Hnot : ~ stopped) by (unfold stopped; tauto).
    destruct permit.
    + pose proof (compute_fn_permitted item direction inputs env H1 H2) as Hr.
      fold flat in Hr. fold result in Hr. simpl in Hr.
      destruct (fst (execute item flat direction (world env))) eqn:Eok;
        rewrite Hr; simpl.
      * split.
        { split; [intros Hx; discriminate Hx|].
          intros [Hx|[_ Hx]]; [contradiction | discriminate Hx]. }
        split; [intros value output_name Hx; now injection Hx|].
        exists [executed; asked]. rewrite <- app_assoc.
        split; [reflexivity|]. split; [auto|]. split.
        { split; [auto | intros _; now left]. }
        { split; [intros _ Hx; discriminate Hx | intros _; right; now left]. }
      * split; [split; auto|].
        split; [intros value output_name Hx; discriminate Hx|].
        exists [executed].
        split; [reflexivity|]. split; [auto|]. split.
        { split; [auto | intros _; now left]. }
        { split; [intros [Hx|[]]; discriminate Hx | intros Hx; now elim Hx]. }
    + pose proof (compute_fn_not_permitted item direction inputs env H1 H2) as Hr.
      fold result in Hr. rewrite Hr. simpl.
      split.
      { split; [intros Hx; discriminate Hx|].
        intros [Hx|[Hx _]]; [contradiction | discriminate Hx]. }
      split; [intros value output_name Hx; now injection Hx|].
      exists [asked].
      split; [reflexivity|]. split; [auto|]. split.
      { split; [intros [Hx|[]]; discriminate Hx | intros [_ Hx]; discriminate Hx]. }
      { split; [intros _ Hx; discriminate Hx | intros _; now left]. }
Qed.

End ComputeMore.

(** ** Items that share a name or a short name *)

Section SharedNames.

Variables (Resource World : Type).
Variable dagster : Dagster Resource World.
Local Abbreviation Item := (ProjectItem Resource World).

Lemma lookup_app_last {V} (d : dict V) k0 v0 k :
  lookup (d ++ [(k0, v0)]) k
  = match lookup d k with
    | Some v => Some v
    | None => if String.eqb k k0 then Some v0 else None
    end.
Proof.
  induction d as [|[k' v'] rest IH]; simpl; [reflexivity|].
  destruct (String.eqb k k'); auto.
Qed.

(** A comprehension keeps, for each key, the value of its last pair. *)
Lemma lookup_store_fold_rev {V} (pairs : list (string * V)) (d : dict V) k :
  lookup (fold_left (fun d kv => store d (fst kv) (snd kv)) pairs d) k
  = match lookup (rev pairs) k with
    | Some v => Some v
    | None => lookup d k
    end.
Proof.
  revert d. induction pairs as [|[k0 v0] rest IH]; simpl; intros d; auto.
  rewrite IH, lookup_app_last.
  destruct (lookup (rev rest) k); auto.
  destruct (String.eqb_spec k k0) as [->|Hne].
  - apply lookup_store_same.
  - now apply lookup_store_other.
Qed.

Lemma lookup_map_find {A V} (key : A -> string) (val : A -> V) (xs : list A) k :
  lookup (map (fun x => (key x, val x)) xs) k
  = option_map val (find (fun x => String.eqb (key x) k) xs).
Proof.
  induction xs as [|x rest IH]; simpl; [reflexivity|].
  rewrite String.eqb_sym. destruct (String.eqb (key x) k); auto.
Qed.

Lemma lookup_dict_of_last {A V} (key : A -> string) (val : A -> V)
    (xs : list A) k :
  lookup (dict_of (map (fun x => (key x, val x)) xs)) k
  = option_map val (find (fun x => String.eqb (key x) k) (rev xs)).
Proof.
  unfold dict_of. rewrite lookup_store_fold_rev, <- map_rev, lookup_map_find.
  now destruct (find _ (rev xs)).
Qed.

(** X12: when several items carry the same name, the name stands for the
    last of them wherever [successors] uses it; and when several carry the
    same short name, the engine's lookup table holds the last of them, so
    that is the item recorded as running and told to stop. *)
Theorem shared_names_mean_the_last_item :
  forall (project_items : list Item) (successors : dict (list string))
         (execution_permits : dict bool) (x : string),
    lookup (short_names project_items) x
    = option_map short_name
        (find (fun item => String.eqb (name item) x) (rev project_items))
    /\ forall self,
         __init__ dagster project_items successors execution_permits = inr self ->
         lookup (_project_item_lookup self) x
         = find (fun item => String.eqb (short_name item) x) (rev project_items).
Proof.
  intros project_items successors execution_permits x. split.
  - unfold short_names. apply lookup_dict_of_last.
  - intros self Hinit.
    destruct (init_inr _ _ _ _ Hinit) as (_ & _ & _ & _ & _ & -> & _).
    rewrite (lookup_dict_of_last short_name (fun item => item)).
    now destruct (find _ (rev project_items)).
Qed.

End SharedNames.

(** ** [run] after [stop] *)

Section RunAfterStop.

Variables (Resource World : Type).
Variable dagster : Dagster Resource World.
Local Abbreviation Item := (ProjectItem Resource World).
Local Abbreviation Plan := (ExecutionPlan Resource World).
Local Abbreviation sched := (scheduler Resource World).
Implicit Types (env : Env Resource World) (plan : Plan).

Lemma log_extends_refl env : log_extends env env.
Proof. exists []. now rewrite app_nil_r. Qed.

Lemma log_extends_trans env1 env2 env3 :
  log_extends env1 env2 -> log_extends env2 env3 -> log_extends env1 env3.
Proof.
  intros [m1 H1] [m2 H2]. exists (m1 ++ m2). now rewrite H2, H1, app_assoc.
Qed.

Lemma appending_make_solid_def (item : Item) injectors direction permit :
  appending (_make_solid_def item injectors direction permit).
Proof.
  intros self_state inputs env. simpl.
  destruct (state_eqb self_state USER_STOPPED || state_eqb self_state FAILED)
    eqn:E.
  - rewrite compute_fn_stopped; [apply log_extends_refl|].
    destruct self_state; simpl in E; try discriminate; auto.
  - assert (H1 : self_state <> USER_STOPPED) by (intros ->; discriminate).
    assert (H2 : self_state <> FAILED) by (intros ->; discriminate).
    destruct permit.
    + rewrite compute_fn_permitted by assumption. cbv zeta.
      destruct (fst (execute item _ direction (world env))); simpl.
      * eexists. rewrite <- app_assoc. reflexivity.
      * eexists. reflexivity.
    + rewrite compute_fn_not_permitted by assumption. simpl.
      eexists. reflexivity.
Qed.

(** The first call of a compute function that runs in state [RUNNING] on
    no inputs. *)
Lemma compute_fn_first_call (item : Item) direction permit env :
  exists more,
    calls (snd (compute_fn RUNNING item direction permit [] env))
    = calls env ++ first_call item direction permit :: more.
Proof.
  unfold first_call. destruct permit.
  - rewrite compute_fn_permitted by discriminate. cbv zeta. simpl.
    destruct (fst (execute item [] direction (world env))); simpl.
    + eexists. rewrite <- app_assoc. reflexivity.
    + eexists. reflexivity.
  - rewrite compute_fn_not_permitted by discriminate. simpl.
    eexists. reflexivity.
Qed.

Lemma plan_next_appends plan self_state env r env' :
  plan_appends plan ->
  plan_next plan self_state env = (r, env') ->
  log_extends env env'
  /\ forall event plan', r = Some (event, plan') -> plan_appends plan'.
Proof.
  intros [Hall Hphase]. unfold plan_next.
  destruct (plan_phase plan) as [|solid inputs|solid] eqn:Ep.
  - destruct (select_ready (dependencies (plan_pipeline plan)) (plan_status plan)
                           (solid_defs (plan_pipeline plan)))
      as [[solid [| |inputs]]|] eqn:Es; unfold ret; intros [= <- <-];
      (split; [apply log_extends_refl|]);
      intros event plan' [= <- <-]; (split; [exact Hall|]); simpl; auto.
    apply select_ready_spec in Es. destruct Es as (Hin & _).
    rewrite Forall_forall in Hall. auto.
  - unfold bind.
    pose proof (Hphase self_state inputs env) as Hlog.
    destruct (solid_compute_fn solid self_state inputs env)
      as [[value oname|] env1]; unfold ret; intros [= <- <-];
      (split; [exact Hlog|]);
      intros event plan' [= <- <-]; (split; [exact Hall|]); simpl; auto.
  - unfold ret. intros [= <- <-]. split; [apply log_extends_refl|].
    intros event plan' [= <- <-]. split; [exact Hall|]. simpl. auto.
Qed.

Lemma chain_next_appends (events : list Plan) self_state env r env' :
  Forall plan_appends events ->
  chain_next sched events self_state env = (r, env') ->
  log_extends env env'
  /\ forall event events', r = Some (event, events') ->
                           Forall plan_appends events'.
Proof.
  revert env. induction events as [|plan rest IH]; intros env Hall.
  - simpl. unfold ret. intros [= <- <-]. split; [apply log_extends_refl|].
    discriminate.
  - inversion Hall as [|? ? Hplan Hrest]; subst.
    simpl. unfold bind.
    destruct (plan_next plan self_state env) as [[[event plan']|] env1] eqn:En;
      destruct (plan_next_appends _ _ Hplan En) as (Hlog & Hnext).
    + unfold ret. intros [= <- <-]. split; [exact Hlog|].
      intros event0 events' [= <- <-]. constructor; eauto.
    + intros Hc. destruct (IH env1 Hrest Hc) as (Hlog' & Hnext').
      split; [eapply log_extends_trans; eauto | exact Hnext'].
Qed.

Lemma run_loop_appends fuel (events : list Plan) self env self' env' :
  Forall plan_appends events ->
  run_loop sched fuel events self env = Some (Returned self' env') ->
  log_extends env env'.
Proof.
  revert events self env.
  induction fuel as [|fuel IH]; simpl; intros events self env Hall;
    [discriminate|].
  destruct (chain_next sched events (_state self) env)
    as [[[event events']|] env1] eqn:Ec;
    destruct (chain_next_appends _ _ Hall Ec) as (Hlog & Hnext).
  - destruct (handle_event self event) as [e|self1]; [discriminate|].
    intros H. eapply log_extends_trans; [exact Hlog|].
    eapply IH; [|exact H]. eapply Hnext. reflexivity.
  - intros [= <- <-]. exact Hlog.
Qed.

Lemma fresh_plan_appends (d : Dagster Resource World)
    (project_items : list Item) injectors direction execution_permits pipeline :
  _make_pipeline d project_items injectors direction execution_permits
  = inr pipeline ->
  plan_appends (execute_pipeline_iterator sched pipeline).
Proof.
  intros H. split; simpl; [|exact I].
  apply Forall_forall. intros solid Hin.
  destruct (_make_pipeline_solids _ _ _ _ _ _ H Hin) as (item & permit & _ & _ & ->).
  apply appending_make_solid_def.
Qed.

(** A dependency graph that the cycle check accepts has a node without
    predecessors, and the scheduler starts with the first such node. *)
Lemma peel_stuck rounds (deps : dict (dict DependencyDefinition)) todo :
  (forall n, In n todo -> dep_solids deps n <> []) ->
  peel rounds deps todo [] = todo.
Proof.
  intros Hall. induction rounds as [|rounds IH]; [reflexivity|].
  assert (Hfree : forall n, In n todo ->
            forallb (fun m => mem m []) (dep_solids deps n) = false).
  { intros n Hin. specialize (Hall n Hin).
    destruct (dep_solids deps n); [congruence | reflexivity]. }
  change (peel (S rounds) deps todo [])
    with (peel rounds deps
            (filter (fun n => negb (forallb (fun m => mem m [])
                                            (dep_solids deps n))) todo)
            (filter (fun n => forallb (fun m => mem m []) (dep_solids deps n))
                    todo ++ [])).
  assert (H1 : filter (fun n => negb (forallb (fun m => mem m [])
                                              (dep_solids deps n))) todo = todo).
  { clear IH Hall. induction todo as [|n todo IHt]; [reflexivity|].
    cbn [filter]. rewrite Hfree by (now left). cbn [negb]. f_equal.
    apply IHt. intros m Hm. apply Hfree. now right. }
  assert (H2 : filter (fun n => forallb (fun m => mem m []) (dep_solids deps n))
                      todo = []).
  { clear IH Hall H1. induction todo as [|n todo IHt]; [reflexivity|].
    cbn [filter]. rewrite Hfree by (now left).
    apply IHt. intros m Hm. apply Hfree. now right. }
  rewrite H1, H2. exact IH.
Qed.

Lemma peel_has_root (deps : dict (dict DependencyDefinition)) names :
  names <> [] ->
  peel (List.length names) deps names [] = [] ->
  exists n, In n names /\ dep_solids deps n = [].
Proof.
  intros Hne Hpeel.
  destruct (existsb (fun n => match dep_solids deps n with
                              | [] => true
                              | _ => false
                              end) names) eqn:E.
  - apply existsb_exists in E. destruct E as (n & Hin & Hn).
    exists n. split; [exact Hin|]. destruct (dep_solids deps n); congruence.
  - exfalso. apply Hne. rewrite <- Hpeel. symmetry. apply peel_stuck.
    intros n Hin Hn.
    assert (Hx : existsb (fun n => match dep_solids deps n with
                                   | [] => true
                                   | _ => false
                                   end) names = true).
    { apply existsb_exists. exists n. split; [exact Hin|]. now rewrite Hn. }
    congruence.
Qed.

Lemma select_ready_fresh (deps : dict (dict DependencyDefinition))
    (solids : list (SolidDefinition Resource World)) :
  (exists solid, In solid solids /\ dep_solids deps (solid_def_name solid) = []) ->
  exists solid, In solid solids
                /\ select_ready deps [] solids = Some (solid, Ready []).
Proof.
  induction solids as [|s rest IH]; intros (solid & Hin & Hroot);
    [destruct Hin|].
  simpl.
  destruct (get_or deps (solid_def_name s) []) as [|[input_name dep] more] eqn:Eg.
  - simpl. exists s. split; [now left | reflexivity].
  - simpl. destruct Hin as [<- | Hin].
    + unfold dep_solids in Hroot. rewrite Eg in Hroot. discriminate.
    + destruct IH as (solid' & Hin' & Hsel); [eauto|].
      exists solid'. split; [now right | exact Hsel].
Qed.

Lemma accepted_pipeline_starts (pipeline : PipelineDefinition Resource World) :
  check_definition pipeline = true ->
  solid_defs pipeline <> [] ->
  exists solid,
    In solid (solid_defs pipeline)
    /\ select_ready (dependencies pipeline) [] (solid_defs pipeline)
       = Some (solid, Ready []).
Proof.
  unfold check_definition. intros Hok Hne.
  apply andb_prop in Hok. destruct Hok as (_ & Hpeel).
  apply select_ready_fresh.
  destruct (@peel_has_root (dependencies pipeline)
              (map solid_def_name (solid_defs pipeline))) as (n & Hin & Hroot).
  - intros Hnil. apply map_eq_nil in Hnil. contradiction.
  - destruct (peel _ _ _ _); [reflexivity | discriminate].
  - apply in_map_iff in Hin. destruct Hin as (solid & <- & Hin).
    exists solid. auto.
Qed.

(** The first two events of a run of an engine that [__init__] made for
    the scheduler: the first node without predecessors of the backward
    pipeline starts, then its compute function runs. *)
Lemma run_first_item (project_items : list Item) successors execution_permits
    (engine : SpineEngine Resource World) env (s : SpineEngineState) :
  __init__ sched project_items successors execution_permits = inr engine ->
  project_items <> [] ->
  exists item permit (events2 : list Plan) engine2,
    In item project_items
    /\ lookup execution_permits (name item) = Some permit
    /\ Forall plan_appends events2
    /\ (forall fuel,
          run sched (S (S fuel)) (set_state engine s) env
          = run_rest sched fuel events2 engine2
              (snd (compute_fn RUNNING item backward permit [] env)))
    /\ run sched 1 (set_state engine s) env = None.
Proof.
  intros Hinit Hne.
  apply init_inr in Hinit.
  destruct Hinit as (back & forth & _ & Hb & Hf & Hlk & _ & _).
  assert (Hpb : plan_appends
                  (execute_pipeline_iterator sched (_backward_pipeline engine)))
    by (eapply fresh_plan_appends; exact Hb).
  assert (Hpf : plan_appends
                  (execute_pipeline_iterator sched (_forward_pipeline engine)))
    by (eapply fresh_plan_appends; exact Hf).
  destruct (_make_pipeline_inr _ _ _ _ _ Hb) as (Hsol & _ & _ & Hok).
  apply solids_of_items in Hsol. destruct Hsol as (Hnames & _).
  destruct (@accepted_pipeline_starts (_backward_pipeline engine))
    as (solid & Hin & Hsel).
  - exact Hok.
  - intros Hnil. rewrite Hnil in Hnames. simpl in Hnames.
    symmetry in Hnames. apply map_eq_nil in Hnames. contradiction.
  - destruct (_make_pipeline_solids _ _ _ _ _ _ Hb Hin)
      as (item & permit & Hitem & Hpermit & ->).
    assert (Hknown : exists item',
               lookup (_project_item_lookup engine) (short_name item)
               = Some item').
    { destruct (lookup (_project_item_lookup engine) (short_name item))
        as [item'|] eqn:El; [eauto|].
      exfalso. apply lookup_None_keys in El. apply El. rewrite Hlk.
      apply keys_dict_of. unfold keys. rewrite map_map. simpl.
      apply in_map_iff. eauto. }
    destruct Hknown as (item' & Hlook).
    exists item, permit.
    destruct (compute_fn RUNNING item backward permit [] env)
      as [[value oname|] env2] eqn:Ec.
    + eexists
        [plan_with (execute_pipeline_iterator sched (_backward_pipeline engine))
           (store [] (short_name item) (Succeeded value))
           (Succeeding (_make_solid_def item back backward permit));
         execute_pipeline_iterator sched (_forward_pipeline engine)],
        (set_running_item (set_state engine RUNNING) item').
      split; [exact Hitem|]. split; [exact Hpermit|].
      split; [constructor; [split; [apply Hpb | exact I] | constructor; [exact Hpf | constructor]]|].
      split.
      * intros fuel. unfold run, run_rest. simpl.
        unfold bind, plan_next at 1. simpl. rewrite Hsel. unfold ret. simpl.
        unfold handle_event at 1. simpl. unfold getitem. rewrite Hlook. simpl.
        unfold bind, plan_next at 1. simpl. unfold bind.
        rewrite Ec. unfold ret. simpl. reflexivity.
      * unfold run. simpl.
        unfold bind, plan_next at 1. simpl. rewrite Hsel. unfold ret. simpl.
        unfold handle_event at 1. simpl. unfold getitem. rewrite Hlook. simpl.
        reflexivity.
    + eexists
        [plan_with (execute_pipeline_iterator sched (_backward_pipeline engine))
           (store [] (short_name item) (StepFailed Resource))
           (Idle Resource World);
         execute_pipeline_iterator sched (_forward_pipeline engine)],
        (set_state (set_running_item (set_state engine RUNNING) item') FAILED).
      split; [exact Hitem|]. split; [exact Hpermit|].
      split; [constructor; [split; [apply Hpb | exact I] | constructor; [exact Hpf | constructor]]|].
      split.
      * intros fuel. unfold run, run_rest. simpl.
        unfold bind, plan_next at 1. simpl. rewrite Hsel. unfold ret. simpl.
        unfold handle_event at 1. simpl. unfold getitem. rewrite Hlook. simpl.
        unfold bind, plan_next at 1. simpl. unfold bind.
        rewrite Ec. unfold ret. simpl.
        unfold handle_event at 1. simpl. unfold getitem. rewrite Hlook. simpl.
        reflexivity.
      * unfold run. simpl.
        unfold bind, plan_next at 1. simpl. rewrite Hsel. unfold ret. simpl.
        unfold handle_event at 1. simpl. unfold getitem. rewrite Hlook. simpl.
        reflexivity.
Qed.

(** C10: [run] starts by setting [RUNNING] whatever the state was, and the
    state before the call has no part in what the run does: a run from any
    prior state, and a run that follows a call of [stop], is the run of the
    engine as it was. Its loop is entered in state [RUNNING] on the
    generators of the engine's two pipelines, backward first: the first
    resumption is handed [RUNNING], and if neither generator has an event
    the run returns with [COMPLETED]. With the scheduler of the
    specification, on an engine that [__init__] made for at least one item
    and that was stopped before it ever ran, some item's compute function
    runs in state [RUNNING] with no inputs, so that the item is called:
    [execute] if it is permitted, [output_resources] otherwise; and every
    run that returns has that call in its log. *)
Theorem run_overwrites_prior_state :
  forall fuel self (s : SpineEngineState) (env : Env Resource World),
    state (fst (run_start dagster (set_state self s))) = RUNNING
    /\ run dagster fuel (set_state self s) env = run dagster fuel self env
    /\ state (fst (stop self env)) = USER_STOPPED
    /\ run dagster fuel (fst (stop self env)) (snd (stop self env))
       = run dagster fuel self (snd (stop self env))
    /\ (forall trace self' env',
          runs dagster (set_state self s) env trace self' env'
          <-> runs dagster self env trace self' env')
    /\ (forall self0 env1,
          self0 = set_state self s \/ self0 = fst (stop self env) ->
          run dagster (S fuel) self0 env1
          = match chain_next dagster
                    [execute_pipeline_iterator dagster (_backward_pipeline self);
                     execute_pipeline_iterator dagster (_forward_pipeline self)]
                    RUNNING env1 with
            | (None, env') => Some (Returned (set_state self COMPLETED) env')
            | (Some (event, events'), env') =>
                match handle_event (set_state self RUNNING) event with
                | inl e => Some (Raised e (set_state self RUNNING) env')
                | inr self1 => run_rest dagster fuel events' self1 env'
                end
            end)
    /\ (forall project_items successors execution_permits engine,
          __init__ sched project_items successors execution_permits = inr engine ->
          project_items <> [] ->
          exists item permit,
            In item project_items
            /\ lookup execution_permits (name item) = Some permit
            /\ state (fst (stop engine env)) = USER_STOPPED
            /\ snd (stop engine env) = env
            /\ (exists more,
                  calls (snd (compute_fn RUNNING item backward permit [] env))
                  = calls env ++ first_call item backward permit :: more)
            /\ (exists events2 engine2,
                  forall fuel',
                    run sched (S (S fuel')) (fst (stop engine env))
                        (snd (stop engine env))
                    = run_rest sched fuel' events2 engine2
                        (snd (compute_fn RUNNING item backward permit [] env)))
            /\ (forall fuel' self' env',
                  run sched fuel' (fst (stop engine env)) (snd (stop engine env))
                  = Some (Returned self' env') ->
                  exists more,
                    calls env'
                    = calls env ++ first_call item backward permit :: more)).
Proof.
  intros fuel self s env.
  assert (Hstart : forall s', run_start dagster (set_state self s')
                              = run_start dagster self) by reflexivity.
  assert (Hstopped : fst (stop self env) = set_state self USER_STOPPED).
  { unfold stop. simpl. destruct (_running_item self); reflexivity. }
  split; [reflexivity|].
  split; [unfold run; now rewrite Hstart|].
  split; [now rewrite Hstopped|].
  split; [rewrite Hstopped; unfold run; now rewrite Hstart|].
  split; [intros trace self' env'; unfold runs; now rewrite Hstart|].
  split.
  - intros self0 env1 Hself0.
    assert (Hs0 : exists s', self0 = set_state self s').
    { destruct Hself0 as [-> | ->]; [eauto | rewrite Hstopped; eauto]. }
    destruct Hs0 as (s' & ->). unfold run, run_rest. simpl.
    match goal with
    | |- context [bind ?c ?k env1] =>
        destruct (bind c k env1) as [[[event events']|] env']
    end; [|reflexivity].
    destruct (handle_event _ event); reflexivity.
  - intros project_items successors execution_permits engine Hinit Hne.
    destruct (@run_first_item _ _ _ _ env USER_STOPPED Hinit Hne)
      as (item & permit & events2 & engine2 & Hitem & Hpermit & Happ
          & Hrun2 & Hrun1).
    assert (Hstop : stop engine env = (set_state engine USER_STOPPED, env)).
    { apply init_inr in Hinit.
      destruct Hinit as (back & forth & _ & _ & _ & _ & _ & Hri).
      unfold stop. simpl. rewrite Hri. reflexivity. }
    rewrite Hstop. simpl fst. simpl snd.
    destruct (compute_fn_first_call item backward permit env) as [m1 H1].
    exists item, permit.
    split; [exact Hitem|]. split; [exact Hpermit|].
    split; [reflexivity|]. split; [reflexivity|].
    split; [eauto|]. split; [eauto|].
    intros fuel' self' env' Hret.
    destruct fuel' as [|[|fuel']].
    + discriminate.
    + rewrite Hrun1 in Hret. discriminate.
    + rewrite Hrun2 in Hret. unfold run_rest in Hret.
      destruct (run_loop sched fuel' events2 engine2 _)
        as [[self1 env1|e self1 env1]|] eqn:El; try discriminate.
      injection Hret as <- <-.
      apply run_loop_appends in El; [|exact Happ].
      destruct El as [m2 H2]. exists (m1 ++ m2).
      rewrite H2, H1, <- app_assoc. reflexivity.
Qed.

End RunAfterStop.


(** ** The further properties at work on the sample project *)

Section MoreWitnesses.

Import Sample.

Lemma init_builds_one_solid_per_item_witness :
  exists self,
    __init__ dagster [A; B] chain_AB (permits true) = inr self
    /\ state self = SLEEPING
    /\ _running_item self = None.
Proof.
  eexists. split; [reflexivity|].
  match goal with
  | |- state ?e = _ /\ _ =>
      destruct (@init_builds_one_solid_per_item string nat dagster
                  [A; B] chain_AB (permits true) e eq_refl)
        as (Hstate & Hrun & _)
  end.
  split; [exact Hstate | exact Hrun].
Defined.

Lemma pipelines_have_no_dangling_dependency_witness :
  exists self,
    __init__ dagster [A; B] chain_AB (permits true) = inr self
    /\ (_forward_pipeline self = _backward_pipeline self
        \/ _forward_pipeline self = _forward_pipeline self)
    /\ forall solid i,
         In solid (solid_defs (_forward_pipeline self)) ->
         (In i (input_defs solid)
          <-> In i (keys (get_or (dependencies (_forward_pipeline self))
                                 (solid_def_name solid) []))).
Proof.
  eexists. split; [reflexivity|]. split; [right; reflexivity|].
  match goal with
  | |- forall solid i, In solid (solid_defs (_forward_pipeline ?e)) -> _ =>
      exact (proj1 (@pipelines_have_no_dangling_dependency string nat dagster
                      [A; B] chain_AB (permits true) e (_forward_pipeline e)
                      eq_refl (or_intror eq_refl)))
  end.
Defined.

Lemma dependencies_follow_successors_witness :
  NoDup (map name [A; B])
  /\ NoDup (map short_name [A; B])
  /\ wf chain_AB
  /\ In A [A; B] /\ In B [A; B]
  /\ exists self,
       __init__ dagster [A; B] chain_AB (permits true) = inr self
       /\ (In (short_name A)
              (dep_solids (dependencies (_forward_pipeline self)) (short_name B))
           <-> In (name B) (get_or chain_AB (name A) [])).
Proof.
  assert (H1 : NoDup (map name [A; B])).
  { simpl. repeat constructor; simpl; intuition discriminate. }
  assert (H2 : NoDup (map short_name [A; B])).
  { simpl. repeat constructor; simpl; intuition discriminate. }
  assert (H3 : wf chain_AB).
  { unfold wf. simpl. repeat constructor; simpl; intuition discriminate. }
  assert (Ha : In A [A; B]) by (left; reflexivity).
  assert (Hb : In B [A; B]) by (right; left; reflexivity).
  split; [exact H1|]. split; [exact H2|]. split; [exact H3|].
  split; [exact Ha|]. split; [exact Hb|].
  eexists. split; [reflexivity|].
  match goal with
  | |- In _ (dep_solids (dependencies (_forward_pipeline ?e)) _) <-> _ =>
      exact (proj1 (@dependencies_follow_successors string nat dagster
                      [A; B] chain_AB (permits true) e A B
                      H1 H2 H3 eq_refl Ha Hb))
  end.
Defined.

Lemma loop_keeps_graph_and_tracks_running_item_witness :
  exists self self1 env',
    __init__ dagster [A] solo (permits true) = inr self
    /\ loop_runs dagster (snd (run_start dagster self)) (fst (run_start dagster self))
                 env0 stopped_trace self1 env'
    /\ _project_item_lookup self1 = _project_item_lookup self
    /\ _running_item self1 = lookup (_project_item_lookup self) "item_a".
Proof.
  eexists. eexists. eexists.
  split; [reflexivity|].
  match goal with |- ?R /\ _ => assert (H : R) end.
  { eapply loop_event; [reflexivity | reflexivity |].
    eapply loop_stop_during; [reflexivity | reflexivity | reflexivity |].
    eapply loop_event; [reflexivity | reflexivity |].
    eapply loop_event; [reflexivity | reflexivity |].
    eapply loop_event; [reflexivity | reflexivity |].
    eapply loop_exhausted. reflexivity. }
  split; [exact H|].
  destruct (loop_keeps_graph_and_tracks_running_item H)
    as (_ & _ & Hl & Hr & _).
  split; [exact Hl | exact Hr].
Defined.

Lemma stop_targets_started_item_witness :
  NoDup (map short_name [A; B])
  /\ In B [A; B]
  /\ exists self,
       __init__ dagster [A; B] chain_AB (permits true) = inr self
       /\ snd (stop self env0) = env0
       /\ exists cur',
            handle_event self {| event_type := STEP_START; solid_name := "item_b" |}
            = inr cur'
            /\ snd (stop cur' env0)
               = {| world := 0; calls := [StopExecutionCall string "Item B"] |}.
Proof.
  assert (H2 : NoDup (map short_name [A; B])).
  { simpl. repeat constructor; simpl; intuition discriminate. }
  assert (Hb : In B [A; B]) by (right; left; reflexivity).
  split; [exact H2|]. split; [exact Hb|].
  eexists. split; [reflexivity|].
  match goal with
  | |- snd (stop ?e env0) = env0 /\ _ =>
      exact (@stop_targets_started_item string nat dagster
               [A; B] chain_AB (permits true) e e B
               {| event_type := STEP_START; solid_name := "item_b" |} env0
               eq_refl H2 Hb eq_refl (or_introl eq_refl) eq_refl)
  end.
Defined.

End MoreWitnesses.
